(** * sphinxext/quote.py: the quote and quotes directives

    A shallow embedding of [src/sphinx/sphinxext/quote.py] and the
    properties its description states about it.

    Conventions of the embedding:
    - a Python exception is a value of [exn]; code that can raise returns
      a [result];
    - an options dictionary is a [gmap string value]: its values start as
      strings, [_prep_tags] turns ['tags'] into a set, and the host's
      [positive_int] converter makes ['random'] an integer;
    - a character is a code point below 256 ([ascii]);
    - [reduce] is the built-in left fold of the Python the module is
      written for (the module does not import it from [functools]). *)

From Stdlib Require Import Ascii.
From stdpp Require Import gmap strings list fin_maps pretty.

(** ** Exceptions and results *)

Inductive exn :=
| KeyError | TypeError | AttributeError | ValueError | IndexError
| NotImplementedError.

Inductive result (A : Type) :=
| Ok (a : A)
| Raise (e : exn).
Arguments Ok {A} a.
Arguments Raise {A} e.

#[global] Instance result_ret : MRet result := λ A a, Ok a.
#[global] Instance result_bind : MBind result := λ A B k r,
  match r with
  | Ok a => k a
  | Raise e => Raise e
  end.

#[global] Instance exn_eq_dec : EqDecision exn.
Proof. solve_decision. Defined.

#[global] Instance result_eq_dec `{EqDecision A} : EqDecision (result A).
Proof. solve_decision. Defined.

(** [[f(x) for x in l]]: the calls are made left to right and the first
    one that raises ends the comprehension. *)
Fixpoint comprehension {A B} (f : A → result B) (l : list A)
  : result (list B) :=
  match l with
  | [] => Ok []
  | x :: l' => y ← f x; ys ← comprehension f l'; Ok (y :: ys)
  end.

(** ** Strings *)

(** [str.isspace] on the code points below 256. *)
Definition isspace (c : ascii) : bool :=
  let n := nat_of_ascii c in
  ((9 <=? n) && (n <=? 13)) || ((28 <=? n) && (n <=? 32))
  || (n =? 133) || (n =? 160).

(** [s.split(',')]: the pieces between the separators, empty pieces
    included; [count(sep) + 1] of them. *)
Fixpoint split (sep : ascii) (s : string) : list string :=
  match s with
  | "" => [""]
  | String c r =>
      if decide (c = sep) then "" :: split sep r
      else match split sep r with
           | h :: t => String c h :: t
           | [] => [String c ""]
           end
  end.

(** [sep.join(l)] *)
Fixpoint join (sep : ascii) (l : list string) : string :=
  match l with
  | [] => ""
  | [x] => x
  | x :: l' => x +:+ String sep (join sep l')
  end.

Fixpoint lstrip (s : string) : string :=
  match s with
  | "" => ""
  | String c r => if isspace c then lstrip r else s
  end.

Fixpoint rstrip (s : string) : string :=
  match s with
  | "" => ""
  | String c r =>
      match rstrip r with
      | "" => if isspace c then "" else String c ""
      | r' => String c r'
      end
  end.

(** [s.strip()] *)
Definition strip (s : string) : string := rstrip (lstrip s).

Fixpoint all_chars (P : ascii → bool) (s : string) : bool :=
  match s with
  | "" => true
  | String c r => P c && all_chars P r
  end.

Definition first_char (s : string) : option ascii :=
  match s with "" => None | String c _ => Some c end.

Fixpoint last_char (s : string) : option ascii :=
  match s with
  | "" => None
  | String c "" => Some c
  | String _ r => last_char r
  end.

(** [sub] occurs in [s]. *)
Definition contains (s sub : string) : Prop :=
  ∃ pre post, s = pre +:+ sub +:+ post.

(** ** Option dictionaries *)

Inductive value :=
| VStr (s : string)
| VInt (n : Z)
| VTags (t : gset string).

#[global] Instance value_eq_dec : EqDecision value.
Proof. solve_decision. Defined.

Abbreviation options := (gmap string value).

(** Python truth value of [d.get(k, None)]. *)
Definition truthy (v : option value) : bool :=
  match v with
  | None => false
  | Some (VStr s) => bool_decide (s ≠ "")
  | Some (VInt n) => bool_decide (n ≠ 0%Z)
  | Some (VTags t) => bool_decide (t ≠ ∅)
  end.

(** The characters of a string, each as a string of length one: what a
    loop over a [str] yields. *)
Fixpoint chars (s : string) : list string :=
  match s with
  | "" => []
  | String c r => String c "" :: chars r
  end.

(** What [set(...)] or [set.issuperset(_, v)] sees when it iterates [v]:
    a set gives its members, a string its characters, an integer is not
    iterable. *)
Definition iterate (v : value) : result (gset string) :=
  match v with
  | VTags t => Ok t
  | VStr s => Ok (list_to_set (chars s))
  | VInt _ => Raise TypeError
  end.

(** [_prep_tags(options)]: only a string has [split]. *)
Definition _prep_tags (o : options) : result options :=
  match default (VStr "") (o !! "tags") with
  | VStr s =>
      Ok (<["tags" := VTags (list_to_set (strip <$> split "," s))]> o)
  | _ => Raise AttributeError
  end.

(** ** Document trees *)

(** The docutils node classes the module touches; [quote_node] and
    [quotes] are its own. *)
Inductive node_class :=
| quote_node | quotes
| nodes_document | nodes_target | nodes_block_quote | nodes_paragraph
| nodes_attribution | nodes_line_block | nodes_inline
| nodes_other (name : string).

#[global] Instance node_class_eq_dec : EqDecision node_class.
Proof. solve_decision. Defined.

#[local] Set Warnings "-register-all".

(** A node: a text leaf, or an element with its ['classes'] and ['ids']
    attributes, its [line], the [options] attribute the two directives
    attach (absent on every other node), and its children. *)
Inductive node :=
| Text (s : string)
| Element (cls : node_class) (classes ids : list string)
    (line : option nat) (opts : option options) (children : list node).

Definition isinstance (n : node) (c : node_class) : bool :=
  match n with
  | Text _ => false
  | Element cls _ _ _ _ _ => bool_decide (cls = c)
  end.

Definition children (n : node) : list node :=
  match n with
  | Text _ => []
  | Element _ _ _ _ _ ch => ch
  end.

Definition node_classes (n : node) : list string :=
  match n with
  | Text _ => []
  | Element _ cl _ _ _ _ => cl
  end.

Definition node_line (n : node) : option nat :=
  match n with
  | Text _ => None
  | Element _ _ _ l _ _ => l
  end.

(** [node.options]; the attribute exists only where a directive set it. *)
Definition node_options (n : node) : result options :=
  match n with
  | Element _ _ _ _ (Some o) _ => Ok o
  | _ => Raise AttributeError
  end.

(** [node.astext()] of a text element: the texts of the children, joined
    by the empty separator. *)
Fixpoint astext (n : node) : string :=
  match n with
  | Text s => s
  | Element _ _ _ _ _ ch =>
      (fix go (l : list node) : string :=
         match l with
         | [] => ""
         | x :: l' => astext x +:+ go l'
         end) ch
  end.

(** [cls('', text, classes=...)] for a [TextElement] class: an empty text
    adds no child. *)
Definition text_element (cls : node_class) (text : string)
    (classes : list string) (ids : list string) : node :=
  Element cls classes ids None None
    (if decide (text = "") then [] else [Text text]).

(** [l[i]] on a list, negative indices counting from the end. *)
Definition getitem {A} (l : list A) (i : Z) : result A :=
  let n := Z.of_nat (length l) in
  let j := if (i <? 0)%Z then (i + n)%Z else i in
  if (0 <=? j)%Z && (j <? n)%Z
  then from_option Ok (Raise IndexError) (l !! Z.to_nat j)
  else Raise IndexError.

(** [try: body / except e: handler] *)
Definition try_except {A} (body : result A) (e : exn) (handler : result A)
  : result A :=
  match body with
  | Ok a => Ok a
  | Raise e' => if decide (e' = e) then handler else Raise e'
  end.

(** One node met by [doctree.traverse(cls)], with what the loop body reads
    from it: the children of [node.parent] and the node's place among
    them.  A node object has one parent and occurs once among its
    children, so [node.parent.index(node)] is that place. *)
Record occurrence := {
  occ_siblings : list node;
  occ_index : nat;
  occ_node : node
}.

(** [doctree.traverse(cls)] below the root, in document order (a node
    before its descendants, then its following siblings).  The root is the
    [document] node and is of neither class of this module. *)
Fixpoint traverse (c : node_class) (n : node) : list occurrence :=
  match n with
  | Text _ => []
  | Element _ _ _ _ _ ch =>
      (fix go (pos : nat) (l : list node) : list occurrence :=
         match l with
         | [] => []
         | x :: l' =>
             (if isinstance x c
              then [{| occ_siblings := ch; occ_index := pos; occ_node := x |}]
              else [])
             ++ traverse c x ++ go (S pos) l'
         end) 0 ch
  end.

(** ** The environment *)

(** One record of the registry: the dict with keys ['docname'], ['lineno'],
    ['quote'] and ['target']. *)
Record quote_info := {
  docname : string;
  lineno : option nat;
  quote : node;
  target : option node
}.

(** The attributes of the build environment the module uses:
    [env.docname], the counter behind [env.new_serialno('index')], and
    [env.quote_all_quotes], which [hasattr] may find missing. *)
Record env := {
  env_docname : string;
  env_serialno : nat;
  quote_all_quotes : option (list quote_info)
}.

Definition set_quote_all_quotes (e : env) (l : list quote_info) : env :=
  {| env_docname := env_docname e;
     env_serialno := env_serialno e;
     quote_all_quotes := Some l |}.

(** [if not hasattr(env, 'quote_all_quotes'): env.quote_all_quotes = []] *)
Definition ensure_registry (e : env) : env :=
  match quote_all_quotes e with
  | Some _ => e
  | None => set_quote_all_quotes e []
  end.

Definition registry (e : env) : list quote_info :=
  default [] (quote_all_quotes e).

(** ** The quote directive *)

(** ['[%(date)s]' % options] and ['Source: %(source)s' % options]: the
    value is a string (the option was read by [directives.unchanged]), so
    [%s] inserts it as it is. *)
Definition format_date (d : string) : string := "[" +:+ d +:+ "]".
Definition format_source (s : string) : string := "Source: " +:+ s.

(** [if key in options: options[key] = f(options[key])] *)
Definition reformat (key : string) (f : string → string)
    (o : gmap string string) : gmap string string :=
  match o !! key with
  | Some v => <[key := f v]> o
  | None => o
  end.

(** The loop over [['author', 'date', 'affiliation', 'source']] that
    fills [siglb]. *)
Definition signature_lines (o : gmap string string) : list node :=
  omap (λ el, (λ v, text_element nodes_inline ("  " +:+ v) [el] []) <$> o !! el)
       ["author"; "date"; "affiliation"; "source"].

(** [Quote.run].  [raw] is [self.options] as the host hands it over (every
    option of [option_spec] is [directives.unchanged], so every value is a
    string), [content] the lines of the directive's body.  The result is
    the returned list [[targetnode] + [node]] and the environment after
    [new_serialno]; a host that has [SphinxDirective] has [new_serialno],
    so the branch on [env.index_num] is not taken. *)
Definition Quote_run (e : env) (raw : gmap string string)
    (content : list string) (self_lineno : nat)
  : result (list node * env) :=
  let targetid := "index-" +:+ pretty (env_serialno e) in
  let e' := {| env_docname := env_docname e;
               env_serialno := S (env_serialno e);
               quote_all_quotes := quote_all_quotes e |} in
  let targetnode := Element nodes_target ["epigraph"] [targetid] None None [] in
  let para := text_element nodes_paragraph (join "010" content) ["text"] [] in
  let options := reformat "source" format_source
                   (reformat "date" format_date raw) in
  let signode :=
    Element nodes_attribution [] [] None None
      (Text "--" :: signature_lines options) in
  let block := Element nodes_block_quote ["epigraph"] [] None None
                 [para; signode] in
  options' ← _prep_tags (VStr <$> options);
  mret ([targetnode;
         Element quote_node [] [] (Some self_lineno) (Some options') [block]],
        e').

(** ** Collecting the quotes: [process_quotes] *)

(** The [try] block of the loop body and its handler. *)
Definition find_target (occ : occurrence) : result (option node) :=
  try_except
    (targetnode ← getitem (occ_siblings occ) (Z.of_nat (occ_index occ) - 1);
     if isinstance targetnode nodes_target
     then mret (Some targetnode)
     else Raise IndexError)
    IndexError
    (mret None).

(** A [for] loop whose body can raise, over the state [S]. *)
Fixpoint for_each {A S} (body : S → A → result S) (s : S) (l : list A)
  : result S :=
  match l with
  | [] => mret s
  | x :: l' => s' ← body s x; for_each body s' l'
  end.

Definition collect_quote (doc : string) (reg : list quote_info)
    (occ : occurrence) : result (list quote_info) :=
  targetnode ← find_target occ;
  mret (reg ++ [{| docname := doc;
                   lineno := node_line (occ_node occ);
                   quote := occ_node occ;
                   target := targetnode |}]).

Definition process_quotes (e : env) (doctree : node) : result env :=
  let e := ensure_registry e in
  reg ← for_each (collect_quote (env_docname e)) (registry e)
         (traverse quote_node doctree);
  mret (set_quote_all_quotes e reg).

(** ** The quotes directive *)

(** [Quotes.run]: the placeholder node, with the options as converted by
    [option_spec] (['random'] an integer, the others strings). *)
Definition Quotes_run (self_options : options) : result (list node) :=
  o ← (if decide (is_Some (self_options !! "tags"))
       then _prep_tags self_options
       else mret self_options);
  mret [Element quotes [] [] None (Some o) []].

(** ** Purging a document: [purge_quotes] *)

Definition purge_quotes (e : env) (doc : string) : env :=
  match quote_all_quotes e with
  | None => e
  | Some l => set_quote_all_quotes e (filter (λ q, docname q ≠ doc) l)
  end.

(** ** Random sampling *)

(** Modelled from the spec: the random source behind [random.sample], as
    a tape of the raw numbers the generator will produce.  Every run of
    the generator is some tape, so a statement for all tapes is a statement
    for all runs. *)
Definition randbelow (tape : list nat) (n : nat) : nat * list nat :=
  match tape with
  | [] => (0, [])
  | x :: tape' => (x mod n, tape')
  end.

(** Modelled from the spec: [random.sample] is the Python standard
    library's, not this repository's.  Following the description, it
    draws [k] entries without replacement: each draw picks a place of the
    pool at random and takes the entry out of the pool. *)
Fixpoint draw {A} (tape : list nat) (pool : list A) (k : nat)
  : list A * list nat :=
  match k with
  | 0 => ([], tape)
  | S k' =>
      let '(j, tape') := randbelow tape (length pool) in
      match pool !! j with
      | Some x =>
          let '(r, tape'') := draw tape' (delete j pool) k' in
          (x :: r, tape'')
      | None => ([], tape')
      end
  end.

(** Modelled from the spec: [sample(population, k)] fails when more
    entries are requested than there are (or fewer than none). *)
Definition sample {A} (tape : list nat) (population : list A) (k : Z)
  : result (list A * list nat) :=
  if (0 <=? k)%Z && (k <=? Z.of_nat (length population))%Z
  then mret (draw tape population (Z.to_nat k))
  else Raise ValueError.

(** ** Resolving the selectors: [process_quote_nodes] *)

(** [d[key]] *)
Definition subscript (d : options) (key : string) : result value :=
  from_option Ok (Raise KeyError) (d !! key).

(** [lambda quote: set.issuperset(quote.options['tags'], ltags)] *)
Definition tags_filter (ltags : value) (quote : node) : result bool :=
  o ← node_options quote;
  qtags ← subscript o "tags";
  match qtags with
  | VTags c => t ← iterate ltags; mret (bool_decide (t ⊆ c))
  | _ => Raise TypeError
  end.

(** [lambda quote: quote.options.get('group', '') == loptions['group']] *)
Definition group_filter (loptions : options) (quote : node) : result bool :=
  o ← node_options quote;
  g ← subscript loptions "group";
  mret (bool_decide (default (VStr "") (o !! "group") = g)).

(** The list [filters] after the two [if ... in loptions] blocks. *)
Definition filters (loptions : options) : list (node → result bool) :=
  match loptions !! "tags" with
  | Some ltags => [tags_filter ltags]
  | None => []
  end
  ++
  (if decide (is_Some (loptions !! "group"))
   then [group_filter loptions]
   else []).

(** [reduce(operator.__and__, bs, True)] *)
Definition reduce_and (bs : list bool) : bool := fold_left andb bs true.

(** The body of the loop over [env.quote_all_quotes]. *)
Definition select (fs : list (node → result bool)) (content : list node)
    (qi : quote_info) : result (list node) :=
  let quote_entry := quote qi in
  bs ← comprehension (λ f, f quote_entry) fs;
  if negb (reduce_and bs) then mret content
  else mret (content ++ [quote_entry]).

(** [content] after the loop over the registry. *)
Definition filtered (loptions : options) (reg : list quote_info)
  : result (list node) :=
  for_each (select (filters loptions)) [] reg.

(** The [random] block.  A count that is not an integer is not what
    [option_spec] produces. *)
Definition random_block (loptions : options) (tape : list nat)
    (content : list node) : result (list node * list nat) :=
  if truthy (loptions !! "random") then
    k ← subscript loptions "random";
    match k with
    | VInt k => sample tape content k
    | _ => Raise TypeError
    end
  else mret (content, tape).

(** The [sections] block: the statements after [raise] are never reached. *)
Definition sections_block (loptions : options) (content : list node)
  : result (list node) :=
  if truthy (loptions !! "sections") then Raise NotImplementedError
  else mret content.

(** One turn of the loop over the [quotes] nodes: the content handed to
    [node.replace_self], and the rest of the tape. *)
Definition resolve (reg : list quote_info) (tape : list nat) (sel : node)
  : result (list node * list nat) :=
  loptions ← node_options sel;
  content ← filtered loptions reg;
  '(content, tape') ← random_block loptions tape content;
  content ← sections_block loptions content;
  mret (content, tape').

(** The body of the loop over [doctree.traverse(quotes)]; [out] collects
    what was handed to [replace_self] so far. *)
Definition resolve_step (reg : list quote_info)
    (st : list (list node) * list nat) (occ : occurrence)
  : result (list (list node) * list nat) :=
  '(content, tape') ← resolve reg st.2 (occ_node occ);
  mret (st.1 ++ [content], tape').

(** [process_quote_nodes]: the environment afterwards, the replacement of
    every [quotes] node in the order of the traversal, and the rest of the
    tape.  Putting the replacement in the place of the node is the host's
    [replace_self]. *)
Definition process_quote_nodes (e : env) (tape : list nat) (doctree : node)
  : result (env * list (list node) * list nat) :=
  let e := ensure_registry e in
  '(out, tape') ← for_each (resolve_step (registry e)) ([], tape)
                    (traverse quotes doctree);
  mret (e, out, tape').

(** ** Vocabulary of the statements *)

(** [s] has no character [sep]. *)
Definition no_char (sep : ascii) (s : string) : bool :=
  all_chars (λ c, bool_decide (c ≠ sep)) s.

(** [comps] are the [sep]-separated components of [s]. *)
Definition components (sep : ascii) (s : string) (comps : list string)
  : Prop :=
  join sep comps = s ∧ comps ≠ [] ∧ Forall (λ p, no_char sep p = true) comps.

(** [t] is [c] with the whitespace at both ends taken off. *)
Definition trimmed (c t : string) : Prop :=
  (∃ l r, c = l +:+ t +:+ r
          ∧ all_chars isspace l = true ∧ all_chars isspace r = true)
  ∧ (∀ ch, first_char t = Some ch → isspace ch = false)
  ∧ (∀ ch, last_char t = Some ch → isspace ch = false).

(** A quote entry as [Quote.run] leaves it: it has options, and their
    ['tags'] is a set. *)
Definition wf_quote (q : node) : bool :=
  match node_options q with
  | Ok o => match o !! "tags" with Some (VTags _) => true | _ => false end
  | Raise _ => false
  end.

(** Selector options as [Quotes.run] leaves them: ['tags'], when present,
    is a set. *)
Definition wf_selector (loptions : options) : bool :=
  match loptions !! "tags" with
  | Some (VTags _) | None => true
  | Some _ => false
  end.

(** Every filter lets [q] through. *)
Definition passes (fs : list (node → result bool)) (q : node) : Prop :=
  Forall (λ f, f q = Ok true) fs.

#[global] Instance passes_dec fs q : Decision (passes fs q).
Proof. unfold passes. apply _. Defined.

(** The [random] option does not make [sample] fail on [n] entries: it
    is absent or false, or an integer count between 0 and [n]. *)
Definition random_fits (loptions : options) (n : nat) : bool :=
  match loptions !! "random" with
  | None => true
  | Some (VInt k) => (0 <=? k)%Z && (k <=? Z.of_nat n)%Z
  | Some v => negb (truthy (Some v))
  end.

(** The place in the pool of the entry that is at place [i] once the
    entry at place [j] has been taken out. *)
Definition undelete (j i : nat) : nat := if decide (i < j) then i else S i.

(** What the lookup of the target yields: the sibling at the index before
    the node's when that is a target, and at index 0 the sibling at
    index -1, the last one. *)
Definition target_of (siblings : list node) (pos : nat) : option node :=
  t ← match pos with
      | 0 => last siblings
      | S i => siblings !! i
      end;
  if isinstance t nodes_target then Some t else None.

(** The record [process_quotes] appends for a quote entry it meets. *)
Definition record_of (doc : string) (occ : occurrence) : quote_info :=
  {| docname := doc;
     lineno := node_line (occ_node occ);
     quote := occ_node occ;
     target := target_of (occ_siblings occ) (occ_index occ) |}.

(** ** Sample data *)

Definition sample_env : env :=
  {| env_docname := "index"; env_serialno := 0; quote_all_quotes := None |}.

Definition document (ch : list node) : node :=
  Element nodes_document [] [] None None ch.

(** A quote entry with nothing but a line and a tag set. *)
Definition tagged_quote (line : nat) (tags : gset string) : node :=
  Element quote_node [] [] (Some line)
    (Some {[ "tags" := VTags tags ]}) [].

Definition entry (doc : string) (q : node) : quote_info :=
  {| docname := doc; lineno := node_line q; quote := q; target := None |}.

Definition three_quotes : list quote_info :=
  [ entry "index" (tagged_quote 1 {[ "a"; "b" ]});
    entry "index" (tagged_quote 2 {[ "b" ]});
    entry "other" (tagged_quote 3 {[ "a"; "b"; "c" ]}) ].

Definition three_quotes_env : env :=
  {| env_docname := "index"; env_serialno := 3;
     quote_all_quotes := Some three_quotes |}.

(** A selector that asks for one random entry and for sections. *)
Definition sections_selector : node :=
  Element quotes [] [] None
    (Some {[ "random" := VInt 1; "sections" := VStr "date" ]}) [].

(** A selector that asks for two random entries. *)
Definition random_selector : node :=
  Element quotes [] [] None (Some {[ "random" := VInt 2 ]}) [].

(** A document whose first child is a quote entry and whose last child is
    a target. *)
Definition quote_first_doctree : node :=
  document
    [ tagged_quote 4 {[ "" ]};
      text_element nodes_paragraph "text" [] [];
      Element nodes_target [] ["later"] None None [] ].

(** ** Vocabulary of the further properties *)

(** The loop of [traverse] over the children [l] of a node whose children
    are [ch], the first of [l] being at index [pos]. *)
Definition traverse_children (c : node_class) (ch : list node)
  : nat → list node → list occurrence :=
  fix go (pos : nat) (l : list node) : list occurrence :=
    match l with
    | [] => []
    | x :: l' =>
        (if isinstance x c
         then [{| occ_siblings := ch; occ_index := pos; occ_node := x |}]
         else [])
        ++ traverse c x ++ go (S pos) l'
    end.




(** The four options shown in the attribution. *)
Definition shown_options : list string :=
  ["author"; "date"; "affiliation"; "source"].

(** ** More sample data *)

(** The environment while the document [news] is read, the registry
    holding the three quotes of other documents. *)
Definition news_env : env :=
  {| env_docname := "news"; env_serialno := 3;
     quote_all_quotes := Some three_quotes |}.

Definition later_target : node :=
  Element nodes_target [] ["later"] None None [].




(** * Properties

    ** Strings: splitting and trimming *)

Section strings.
Implicit Types (s h : string) (c sep : ascii) (t : list string).

Lemma append_String c s1 s2 : String c s1 +:+ s2 = String c (s1 +:+ s2).
Proof. done. Qed.

Lemma append_nil_l s : "" +:+ s = s.
Proof. done. Qed.

Lemma split_cons sep s : ∃ h t, split sep s = h :: t.
Proof.
  induction s as [|c r [h [t IH]]]; simpl; [by eauto|].
  case_decide; [by eauto|]. rewrite IH. by eauto.
Qed.

Lemma join_cons_cons sep h h' t :
  join sep (h :: h' :: t) = h +:+ String sep (join sep (h' :: t)).
Proof. done. Qed.

Lemma join_String sep c h t :
  join sep (String c h :: t) = String c (join sep (h :: t)).
Proof. by destruct t. Qed.

Lemma join_split sep s : join sep (split sep s) = s.
Proof.
  induction s as [|c r IH]; [done|]. simpl.
  destruct (split_cons sep r) as (h & t & Hr). rewrite Hr in IH |- *.
  case_decide as Hc.
  - rewrite join_cons_cons, IH. by subst.
  - by rewrite join_String, IH.
Qed.

Lemma split_no_char sep s :
  Forall (λ p, no_char sep p = true) (split sep s).
Proof.
  induction s as [|c r IH]; simpl; [by repeat constructor|].
  destruct (split_cons sep r) as (h & t & Hr). rewrite Hr in IH |- *.
  apply Forall_cons in IH as [Hh Ht].
  case_decide as Hc.
  - by repeat constructor.
  - constructor; [|done]. unfold no_char in *. simpl.
    by rewrite Hh, bool_decide_true.
Qed.

Lemma split_components sep s : components sep s (split sep s).
Proof.
  split_and!; [apply join_split| |apply split_no_char].
  by destruct (split_cons sep s) as (h & t & ->).
Qed.

Lemma lstrip_decompose s :
  ∃ l, s = l +:+ lstrip s ∧ all_chars isspace l = true.
Proof.
  induction s as [|c r (l & Hl & Hs)]; simpl; [by exists ""|].
  destruct (isspace c) eqn:Hc.
  - exists (String c l). rewrite append_String. simpl.
    by rewrite Hc, <-Hl.
  - by exists "".
Qed.

Lemma lstrip_first s ch :
  first_char (lstrip s) = Some ch → isspace ch = false.
Proof.
  induction s as [|c r IH]; simpl; [done|].
  destruct (isspace c) eqn:Hc; [done|]. simpl. by intros [= <-].
Qed.

Lemma rstrip_decompose s :
  ∃ r, s = rstrip s +:+ r ∧ all_chars isspace r = true.
Proof.
  induction s as [|c s (r & Hr & Hs)]; simpl; [by exists ""|].
  destruct (rstrip s) as [|c' s'] eqn:Hrs.
  - destruct (isspace c) eqn:Hc.
    + exists (String c r). rewrite append_nil_l in *. simpl.
      subst s. by rewrite Hc, Hs.
    + exists r. rewrite append_String, append_nil_l in *. by subst s.
  - exists r. rewrite append_String. by rewrite <-Hr.
Qed.

Lemma rstrip_last s ch :
  last_char (rstrip s) = Some ch → isspace ch = false.
Proof.
  induction s as [|c s IH]; simpl; [done|].
  destruct (rstrip s) as [|c' s'] eqn:Hrs.
  - destruct (isspace c) eqn:Hc; simpl; [done|]. by intros [= <-].
  - done.
Qed.

Lemma rstrip_first s ch :
  first_char (rstrip s) = Some ch → first_char s = Some ch.
Proof.
  destruct s as [|c s]; simpl; [done|].
  destruct (rstrip s); [|done]. by destruct (isspace c).
Qed.

Lemma strip_trimmed s : trimmed s (strip s).
Proof.
  unfold strip. destruct (lstrip_decompose s) as (l & Hl & Hsl).
  destruct (rstrip_decompose (lstrip s)) as (r & Hr & Hsr).
  split_and!.
  - exists l, r. by rewrite <-Hr.
  - intros ch Hch. by eapply lstrip_first, rstrip_first.
  - apply rstrip_last.
Qed.
End strings.

Section strip_unique.
Implicit Types (s l r : string).

Lemma lstrip_spaces_app l s :
  all_chars isspace l = true → lstrip (l +:+ s) = lstrip s.
Proof.
  induction l as [|c l IH]; [done|]. rewrite append_String. simpl.
  intros [Hc Hl]%andb_true_iff. rewrite Hc. auto.
Qed.

Lemma lstrip_spaces r : all_chars isspace r = true → lstrip r = "".
Proof.
  induction r as [|c r IH]; [done|]. simpl.
  intros [Hc Hr]%andb_true_iff. rewrite Hc. auto.
Qed.

Lemma rstrip_spaces r : all_chars isspace r = true → rstrip r = "".
Proof.
  induction r as [|c r IH]; [done|]. simpl.
  intros [Hc Hr]%andb_true_iff. by rewrite IH, Hc.
Qed.

Lemma rstrip_app_spaces s r :
  all_chars isspace r = true → rstrip (s +:+ r) = rstrip s.
Proof.
  intros Hr. induction s as [|c s IH].
  - by rewrite append_nil_l, rstrip_spaces.
  - rewrite append_String. simpl. by rewrite IH.
Qed.

Lemma rstrip_id s :
  (∀ ch, last_char s = Some ch → isspace ch = false) → rstrip s = s.
Proof.
  induction s as [|c s IH]; [done|]. intros Hlast. simpl.
  destruct s as [|c' s'].
  - simpl. by rewrite (Hlast c).
  - rewrite IH; [done|]. intros ch Hch. by apply Hlast.
Qed.

Lemma trimmed_strip s t : trimmed s t → t = strip s.
Proof.
  intros [(l & r & -> & Hl & Hr) [Hfirst Hlast]]. unfold strip.
  rewrite lstrip_spaces_app by done.
  destruct t as [|c t].
  - by rewrite append_nil_l, lstrip_spaces.
  - rewrite append_String. simpl. rewrite (Hfirst c) by done.
    rewrite <-append_String, rstrip_app_spaces by done.
    by rewrite rstrip_id.
Qed.
End strip_unique.

Lemma elem_of_stripped (comps : list string) (t : string) :
  t ∈ (list_to_set (strip <$> comps) : gset string)
  ↔ ∃ c, c ∈ comps ∧ trimmed c t.
Proof.
  rewrite elem_of_list_to_set, list_elem_of_fmap. split.
  - intros (c & -> & Hc). exists c. split; [done|apply strip_trimmed].
  - intros (c & Hc & Ht). exists c. split; [by apply trimmed_strip|done].
Qed.

Lemma Quote_run_ok (e : env) (raw : gmap string string)
    (content : list string) (ln : nat) :
  ∃ targetnode block o,
    Quote_run e raw content ln
    = Ok ([targetnode; Element quote_node [] [] (Some ln) (Some o) [block]],
          {| env_docname := env_docname e;
             env_serialno := S (env_serialno e);
             quote_all_quotes := quote_all_quotes e |})
    ∧ o !! "tags"
      = Some (VTags (list_to_set
                       (strip <$> split "," (default "" (raw !! "tags"))))).
Proof.
  unfold Quote_run, _prep_tags.
  set (o := reformat "source" format_source (reformat "date" format_date raw)).
  assert (o !! "tags" = raw !! "tags") as Ho.
  { unfold o, reformat.
    repeat case_match; by rewrite ?lookup_insert_ne by done. }
  rewrite lookup_fmap, Ho.
  destruct (raw !! "tags") as [s|]; simpl;
    do 3 eexists; (split; [done|]); by rewrite lookup_insert_eq.
Qed.

(** C7.  [_prep_tags] replaces the ['tags'] option, read as the empty
    string when it is absent, by the set of the comma-separated components
    of the string, each with the whitespace at its ends taken off.  The set
    is never empty, and for an absent or empty option it is the singleton
    of the empty string.  [Quote.run] does this at every call, so the
    options of every quote entry hold a tag set. *)
Theorem prep_tags_components (o : options) (s : string) (e : env)
    (raw : gmap string string) (content : list string) (ln : nat) :
  default (VStr "") (o !! "tags") = VStr s →
  ∃ (comps : list string) (T : gset string),
    components "," s comps
    ∧ (∀ t, t ∈ T ↔ ∃ c, c ∈ comps ∧ trimmed c t)
    ∧ _prep_tags o = Ok (<["tags" := VTags T]> o)
    ∧ T ≠ ∅
    ∧ (s = "" → T = {[""]})
    ∧ ∃ targetnode node e' qo Tq,
        Quote_run e raw content ln = Ok ([targetnode; node], e')
        ∧ node_options node = Ok qo
        ∧ qo !! "tags" = Some (VTags Tq)
        ∧ Tq ≠ ∅
        ∧ ∀ t, t ∈ Tq
               ↔ ∃ c, c ∈ split "," (default "" (raw !! "tags")) ∧ trimmed c t.
Proof.
  intros Hs. exists (split "," s), (list_to_set (strip <$> split "," s)).
  split_and!.
  - apply split_components.
  - apply elem_of_stripped.
  - unfold _prep_tags. by rewrite Hs.
  - destruct (split_cons "," s) as (h & t & ->). set_solver.
  - by intros ->.
  - destruct (Quote_run_ok e raw content ln) as (tn & block & qo & Hrun & Hqo).
    eexists _, _, _, qo, _. split_and!; [done|done|done| |apply elem_of_stripped].
    destruct (split_cons "," (default "" (raw !! "tags"))) as (h & t & ->).
    set_solver.
Qed.

Section filtering.
Implicit Types (fs : list (node → result bool)) (q : node)
  (reg : list quote_info) (loptions : options).

Lemma fold_left_andb (bs : list bool) (a : bool) :
  fold_left andb bs a = a && forallb id bs.
Proof.
  revert a. induction bs as [|b bs IH]; intros a; simpl.
  - by rewrite andb_true_r.
  - by rewrite IH, andb_assoc.
Qed.

Lemma comprehension_total fs q :
  Forall (λ f, ∃ b, f q = Ok b) fs →
  ∃ bs, comprehension (λ f, f q) fs = Ok bs
        ∧ (reduce_and bs = true ↔ passes fs q).
Proof.
  unfold reduce_and, passes. induction 1 as [|f fs [b Hb] _ (bs & Hbs & IH)].
  - exists []. by split.
  - exists (b :: bs). simpl. rewrite Hb, Hbs. split; [done|].
    rewrite fold_left_andb in IH |- *. simpl.
    rewrite Forall_cons, andb_true_iff, <-IH, Hb. simpl.
    split; [intros []|intros [[= ->] ?]]; by subst.
Qed.

Lemma select_eval fs (acc : list node) (qi : quote_info) :
  Forall (λ f, ∃ b, f (quote qi) = Ok b) fs →
  select fs acc qi
  = Ok (if decide (passes fs (quote qi)) then acc ++ [quote qi] else acc).
Proof.
  intros Hqi. unfold select. cbv zeta.
  destruct (comprehension_total _ _ Hqi) as (bs & -> & Hbs). simpl.
  destruct (reduce_and bs); simpl.
  - by rewrite decide_True by by apply Hbs.
  - rewrite decide_False; [done|]. by intros ?%Hbs.
Qed.

Lemma for_each_select fs reg (acc : list node) :
  Forall (λ qi, Forall (λ f, ∃ b, f (quote qi) = Ok b) fs) reg →
  for_each (select fs) acc reg
  = Ok (acc ++ filter (passes fs) (quote <$> reg)).
Proof.
  intros Hreg. revert acc.
  induction Hreg as [|qi reg Hqi _ IH]; intros acc; simpl.
  - by rewrite app_nil_r.
  - rewrite select_eval by done. simpl. rewrite IH, filter_cons.
    case_decide; [by rewrite <-app_assoc|done].
Qed.

Lemma tags_filter_eval (T C : gset string) q o :
  node_options q = Ok o → o !! "tags" = Some (VTags C) →
  tags_filter (VTags T) q = Ok (bool_decide (T ⊆ C)).
Proof. intros Ho HC. unfold tags_filter, subscript. by rewrite Ho; simpl; rewrite HC. Qed.

Lemma group_filter_eval loptions g q o :
  loptions !! "group" = Some g → node_options q = Ok o →
  group_filter loptions q
  = Ok (bool_decide (default (VStr "") (o !! "group") = g)).
Proof. intros Hg Ho. unfold group_filter, subscript. by rewrite Ho; simpl; rewrite Hg. Qed.

Lemma filters_total loptions q :
  wf_selector loptions = true → wf_quote q = true →
  Forall (λ f, ∃ b, f q = Ok b) (filters loptions).
Proof.
  unfold wf_selector, wf_quote. intros Hsel Hq.
  destruct (node_options q) as [o|] eqn:Ho; [|done].
  destruct (o !! "tags") as [[| |C]|] eqn:HC; try done.
  unfold filters. apply Forall_app. split.
  - destruct (loptions !! "tags") as [[| |T]|] eqn:Hv; try done;
      repeat constructor.
    eexists. by eapply tags_filter_eval.
  - case_decide as Hg; [|constructor]. destruct Hg as [g Hg].
    repeat constructor. eexists. by eapply group_filter_eval.
Qed.

Lemma filtered_eval loptions reg :
  wf_selector loptions = true →
  forallb (λ qi, wf_quote (quote qi)) reg = true →
  filtered loptions reg
  = Ok (filter (passes (filters loptions)) (quote <$> reg)).
Proof.
  intros Hsel Hreg. unfold filtered. rewrite for_each_select; [done|].
  apply Is_true_true_2, forallb_True in Hreg.
  eapply Forall_impl; [done|]. intros qi Hqi. simpl in Hqi.
  apply filters_total; [done|]. by apply Is_true_true_1.
Qed.

Lemma filtered_no_filter loptions reg :
  loptions !! "tags" = None → loptions !! "group" = None →
  filtered loptions reg = Ok (quote <$> reg).
Proof.
  intros Ht Hg. unfold filtered, filters. rewrite Ht, Hg.
  rewrite decide_False by by intros [? [=]]. simpl.
  rewrite for_each_select by (apply Forall_forall; by constructor).
  f_equal. simpl. induction reg as [|qi reg IH]; [done|].
  rewrite fmap_cons, filter_cons, decide_True by constructor.
  by rewrite IH.
Qed.

Lemma passes_tags_only loptions (T C : gset string) q o :
  loptions !! "tags" = Some (VTags T) → loptions !! "group" = None →
  node_options q = Ok o → o !! "tags" = Some (VTags C) →
  passes (filters loptions) q ↔ T ⊆ C.
Proof.
  intros HT HG Ho HC. unfold passes, filters. rewrite HT, HG.
  rewrite decide_False by by intros [? [=]]. simpl.
  rewrite Forall_singleton, (tags_filter_eval T C q o) by done.
  split; [intros [= ?%bool_decide_eq_true]|intros ?]; [done|].
  by rewrite bool_decide_true.
Qed.
End filtering.

(** C1.  With the requested tag set [T] in the selector's options, the
    tag filter is the first of the filters, and on a candidate whose
    options hold the tag set [C] it answers true exactly when [T ⊆ C]. *)
Theorem tags_filter_superset (loptions : options) (T C : gset string)
    (q : node) (o : options) :
  loptions !! "tags" = Some (VTags T) →
  node_options q = Ok o →
  o !! "tags" = Some (VTags C) →
  head (filters loptions) = Some (tags_filter (VTags T))
  ∧ ∃ b, tags_filter (VTags T) q = Ok b ∧ (b = true ↔ T ⊆ C).
Proof.
  intros HT Ho HC. split.
  - unfold filters. by rewrite HT.
  - exists (bool_decide (T ⊆ C)). split; [by eapply tags_filter_eval|].
    apply bool_decide_eq_true.
Qed.

(** C2.  With the requested group [G] in the selector's options, the
    group filter is the last of the filters, and it answers true exactly
    when the candidate's group is [G]; a candidate without a group passes
    only for the empty [G]. *)
Theorem group_filter_equal (loptions : options) (G : string)
    (q : node) (o : options) :
  loptions !! "group" = Some (VStr G) →
  node_options q = Ok o →
  last (filters loptions) = Some (group_filter loptions)
  ∧ ∃ b, group_filter loptions q = Ok b
         ∧ (b = true ↔ match o !! "group" with
                        | Some g => g = VStr G
                        | None => G = ""
                        end).
Proof.
  intros HG Ho. split.
  - unfold filters. rewrite decide_True by by eexists.
    by rewrite last_snoc.
  - eexists. split; [by eapply group_filter_eval|].
    rewrite bool_decide_eq_true.
    destruct (o !! "group"); simpl; [done|]. split; congruence.
Qed.

(** C3.  For a selector and a registry as the directives leave them, the
    content collected by [process_quote_nodes] is the registry's quote
    entries that pass every filter, in registry order; without a tags and
    a group option it is every entry; and for three entries tagged
    [{a,b}], [{b}], [{a,b,c}] and a selector requiring [{a,b}] it is the
    first and the third entry, in that order. *)
Theorem filtered_conjunction (loptions : options) (reg : list quote_info) :
  wf_selector loptions = true →
  forallb (λ qi, wf_quote (quote qi)) reg = true →
  filtered loptions reg
  = Ok (filter (passes (filters loptions)) (quote <$> reg))
  ∧ (loptions !! "tags" = None → loptions !! "group" = None →
     filtered loptions reg = Ok (quote <$> reg))
  ∧ (∀ q1 q2 q3 o1 o2 o3,
       quote <$> reg = [q1; q2; q3] →
       node_options q1 = Ok o1 → o1 !! "tags" = Some (VTags {[ "a"; "b" ]}) →
       node_options q2 = Ok o2 → o2 !! "tags" = Some (VTags {[ "b" ]}) →
       node_options q3 = Ok o3 →
       o3 !! "tags" = Some (VTags {[ "a"; "b"; "c" ]}) →
       loptions !! "tags" = Some (VTags {[ "a"; "b" ]}) →
       loptions !! "group" = None →
       filtered loptions reg = Ok [q1; q3]).
Proof.
  intros Hsel Hreg. split_and!.
  - by apply filtered_eval.
  - apply filtered_no_filter.
  - intros q1 q2 q3 o1 o2 o3 Hqs Ho1 Ht1 Ho2 Ht2 Ho3 Ht3 HT HG.
    rewrite filtered_eval, Hqs by done. f_equal.
    rewrite !filter_cons, filter_nil.
    rewrite decide_True, decide_False, decide_True; [done|..].
    + eapply passes_tags_only; [done..|]. set_unfold. tauto.
    + intros Hp. eapply passes_tags_only in Hp; [|done..].
      assert ("a" ∈ ({[ "b" ]} : gset string)) as Ha.
      { apply Hp. set_unfold. tauto. }
      by apply elem_of_singleton in Ha.
    + eapply passes_tags_only; [done..|]. set_unfold. tauto.
Qed.

Lemma filtered_conjunction_witness :
  wf_selector {[ "tags" := VTags {[ "a"; "b" ]} ]} = true
  ∧ forallb (λ qi, wf_quote (quote qi)) three_quotes = true
  ∧ filtered {[ "tags" := VTags {[ "a"; "b" ]} ]} three_quotes
    = Ok [tagged_quote 1 {[ "a"; "b" ]}; tagged_quote 3 {[ "a"; "b"; "c" ]}].
Proof.
  split; [reflexivity|]. split; [reflexivity|].
  eapply (filtered_conjunction {[ "tags" := VTags {[ "a"; "b" ]} ]}
            three_quotes); reflexivity.
Defined.

Lemma tags_filter_superset_witness :
  head (filters {[ "tags" := VTags {[ "a"; "b" ]} ]})
  = Some (tags_filter (VTags {[ "a"; "b" ]}))
  ∧ ∃ b, tags_filter (VTags {[ "a"; "b" ]})
           (tagged_quote 3 {[ "a"; "b"; "c" ]}) = Ok b
         ∧ (b = true ↔ ({[ "a"; "b" ]} : gset string) ⊆ {[ "a"; "b"; "c" ]}).
Proof.
  apply (tags_filter_superset {[ "tags" := VTags {[ "a"; "b" ]} ]}
           {[ "a"; "b" ]} {[ "a"; "b"; "c" ]}
           (tagged_quote 3 {[ "a"; "b"; "c" ]})
           {[ "tags" := VTags {[ "a"; "b"; "c" ]} ]});
    reflexivity.
Defined.

Lemma group_filter_equal_witness :
  last (filters {[ "group" := VStr "" ]})
  = Some (group_filter {[ "group" := VStr "" ]})
  ∧ ∃ b, group_filter {[ "group" := VStr "" ]} (tagged_quote 1 {[ "a" ]}) = Ok b
         ∧ (b = true
            ↔ match ({[ "tags" := VTags {[ "a" ]} ]} : options) !! "group" with
              | Some g => g = VStr ""
              | None => "" = ""
              end).
Proof.
  apply (group_filter_equal {[ "group" := VStr "" ]} ""
           (tagged_quote 1 {[ "a" ]}) {[ "tags" := VTags {[ "a" ]} ]});
    reflexivity.
Defined.

Lemma prep_tags_components_witness :
  default (VStr "") ((∅ : options) !! "tags") = VStr ""
  ∧ ∃ T : gset string, _prep_tags ∅ = Ok (<["tags" := VTags T]> ∅) ∧ T = {[ "" ]}.
Proof.
  split; [reflexivity|].
  destruct (prep_tags_components ∅ "" sample_env ∅ [] 1)
    as (comps & T & _ & _ & Hprep & _ & Hempty & _); [reflexivity|].
  exists T. split; [exact Hprep|exact (Hempty eq_refl)].
Defined.

(** ** Purging *)

Section purge.
Implicit Types (l k : list quote_info) (doc : string).

Lemma sublist_filter_max (P : quote_info → Prop) `{!∀ x, Decision (P x)} k l :
  k `sublist_of` l → Forall P k → k `sublist_of` filter P l.
Proof.
  induction 1 as [|x k l _ IH|x k l _ IH]; intros HP.
  - done.
  - apply Forall_cons in HP as [Hx HP].
    rewrite filter_cons, decide_True by done. by apply sublist_skip, IH.
  - rewrite filter_cons. case_decide; [apply sublist_cons|]; by apply IH.
Qed.
End purge.

(** C4.  [purge_quotes] leaves an environment without a registry as it
    is; otherwise the new registry holds exactly the entries of the old
    one whose document is not the purged one, in their old order: it is a
    sublist of the old registry, and every sublist of the old registry
    free of the purged document is a sublist of it.  Nothing else of the
    environment changes. *)
Theorem purge_quotes_exact (e : env) (doc : string) :
  env_docname (purge_quotes e doc) = env_docname e
  ∧ env_serialno (purge_quotes e doc) = env_serialno e
  ∧ match quote_all_quotes e with
    | None => quote_all_quotes (purge_quotes e doc) = None
    | Some l =>
        ∃ l', quote_all_quotes (purge_quotes e doc) = Some l'
              ∧ (∀ qi, qi ∈ l' ↔ qi ∈ l ∧ docname qi ≠ doc)
              ∧ l' `sublist_of` l
              ∧ (∀ k, k `sublist_of` l →
                      Forall (λ qi, docname qi ≠ doc) k →
                      k `sublist_of` l')
    end.
Proof.
  unfold purge_quotes. destruct (quote_all_quotes e) as [l|] eqn:Hl; simpl;
    [|by rewrite Hl].
  split_and!; [done..|]. eexists. split_and!; [done|..].
  - intros qi. rewrite list_elem_of_filter. tauto.
  - apply sublist_filter.
  - intros k. apply sublist_filter_max; apply _.
Qed.

(** ** Sampling *)

Section sampling.
Context {A : Type}.
Implicit Types (pool r : list A) (tape : list nat) (k : nat).

Lemma randbelow_lt tape n : 0 < n → (randbelow tape n).1 < n.
Proof.
  intros Hn. destruct tape as [|x tape]; simpl; [done|].
  apply Nat.mod_upper_bound. lia.
Qed.

Lemma undelete_lookup pool j i : delete j pool !! i = pool !! undelete j i.
Proof.
  unfold undelete. case_decide.
  - by apply list_lookup_delete_lt.
  - apply list_lookup_delete_ge. lia.
Qed.

Lemma undelete_ne j i : undelete j i ≠ j.
Proof. unfold undelete. case_decide; lia. Qed.

Lemma undelete_inj j : Inj (=) (=) (undelete j).
Proof. intros i1 i2. unfold undelete. repeat case_decide; lia. Qed.

(** One draw from a pool that is not empty: name the place, the entry
    and the result of the remaining draws. *)
Ltac one_draw tape pool k IH :=
  let Hj := fresh "Hj" in
  let j := fresh "j" in
  let x := fresh "x" in
  let Hx := fresh "Hx" in
  let tape' := fresh "tape'" in
  pose proof (randbelow_lt tape (length pool) ltac:(lia)) as Hj;
  destruct (randbelow tape (length pool)) as [j tape'];
  simpl in Hj; destruct (lookup_lt_is_Some_2 pool j Hj) as [x Hx];
  rewrite Hx;
  specialize (IH tape' (delete j pool));
  rewrite length_delete in IH by eauto;
  specialize (IH ltac:(lia));
  destruct (draw tape' (delete j pool) k); simpl in *.

Lemma draw_length tape pool k :
  k ≤ length pool → length (draw tape pool k).1 = k.
Proof.
  revert tape pool. induction k as [|k IH]; intros tape pool Hk; simpl;
    [done|].
  one_draw tape pool k IH. by rewrite IH.
Qed.

Lemma draw_places tape pool k :
  k ≤ length pool →
  ∃ places,
    NoDup places
    ∧ Forall2 (λ i x, pool !! i = Some x) places (draw tape pool k).1.
Proof.
  revert tape pool. induction k as [|k IH]; intros tape pool Hk; simpl.
  { exists []. split; constructor. }
  one_draw tape pool k IH. destruct IH as (places & Hnd & Hpl).
  exists (j :: (undelete j <$> places)). split.
  - apply NoDup_cons. split; [|by apply (NoDup_fmap_2 (undelete j) (Inj0 := undelete_inj j))].
    intros (i & Hi & _)%list_elem_of_fmap. by destruct (undelete_ne j i).
  - constructor; [done|]. apply Forall2_fmap_l.
    eapply Forall2_impl; [done|]. intros i y. simpl.
    by rewrite undelete_lookup.
Qed.

Lemma draw_submseteq tape pool k :
  k ≤ length pool → (draw tape pool k).1 ⊆+ pool.
Proof.
  revert tape pool. induction k as [|k IH]; intros tape pool Hk; simpl.
  { apply submseteq_nil_l. }
  one_draw tape pool k IH.
  rewrite (delete_Permutation pool j x) by done. by apply submseteq_skip.
Qed.

Lemma submseteq_NoDup r pool : r ⊆+ pool → NoDup pool → NoDup r.
Proof.
  intros [r' Hr]%submseteq_Permutation. rewrite Hr, NoDup_app. tauto.
Qed.

Lemma sample_ok tape pool (k : Z) :
  (0 ≤ k ≤ Z.of_nat (length pool))%Z →
  sample tape pool k = Ok (draw tape pool (Z.to_nat k)).
Proof.
  intros Hk. unfold sample.
  by rewrite andb_true_intro by (split; apply Z.leb_le; lia).
Qed.

Lemma sample_raises tape pool (k : Z) :
  (Z.of_nat (length pool) < k)%Z → sample tape pool k = Raise ValueError.
Proof.
  intros Hk. unfold sample.
  replace (k <=? Z.of_nat (length pool))%Z with false
    by (symmetry; apply Z.leb_gt; lia).
  by rewrite andb_false_r.
Qed.
End sampling.

(** ** The loop over the selectors *)

Section loop.
Implicit Types (e : env) (reg : list quote_info) (tape : list nat)
  (occ : occurrence) (loptions : options).

Lemma for_each_app {A S} (body : S → A → result S) (s : S) (l1 l2 : list A) :
  for_each body s (l1 ++ l2)
  = (s' ← for_each body s l1; for_each body s' l2).
Proof.
  revert s. induction l1 as [|x l1 IH]; intros s; simpl; [done|].
  destruct (body s x); simpl; [apply IH|done].
Qed.

Lemma registry_ensure e : registry (ensure_registry e) = registry e.
Proof. by destruct e as [doc n [l|]]. Qed.

Lemma for_each_raises {A S} (body : S → A → result S) (s s' : S)
    (l1 l2 : list A) (x : A) (ex : exn) :
  for_each body s l1 = Ok s' → body s' x = Raise ex →
  for_each body s (l1 ++ x :: l2) = Raise ex.
Proof. intros H1 Hx. rewrite for_each_app, H1. simpl. by rewrite Hx. Qed.

(** An exception raised while a selector is resolved leaves the
    callback: nothing in it catches anything. *)
Lemma process_quote_nodes_raises e tape doctree pre occ post out tape1 ex :
  traverse quotes doctree = pre ++ occ :: post →
  for_each (resolve_step (registry e)) ([], tape) pre = Ok (out, tape1) →
  resolve (registry e) tape1 (occ_node occ) = Raise ex →
  process_quote_nodes e tape doctree = Raise ex.
Proof.
  intros Htr Hpre Hocc. unfold process_quote_nodes. cbv zeta.
  rewrite registry_ensure, Htr.
  rewrite (for_each_raises _ _ (out, tape1) _ _ _ ex); [done..|].
  unfold resolve_step. simpl. by rewrite Hocc.
Qed.

Lemma resolve_eval reg tape sel loptions content :
  node_options sel = Ok loptions →
  filtered loptions reg = Ok content →
  resolve reg tape sel
  = ('(content, tape') ← random_block loptions tape content;
     content ← sections_block loptions content;
     mret (content, tape')).
Proof. intros Ho Hf. unfold resolve. rewrite Ho. simpl. by rewrite Hf. Qed.

Lemma random_block_sample loptions tape (content : list node) (k : Z) :
  loptions !! "random" = Some (VInt k) → k ≠ 0%Z →
  random_block loptions tape content = sample tape content k.
Proof.
  intros Hk Hne. unfold random_block, subscript. rewrite Hk. simpl.
  by rewrite bool_decide_true.
Qed.
End loop.

(** C5.  When the requested count [k] is at least 1 and at most the
    number [n] of filtered entries, the selector resolves to [k] entries
    taken from distinct places of the filtered content: no entry is used
    more often than it occurs there, so no entry is repeated when the
    filtered content has no repetition; the result is never longer than
    the filtered content, and for [k = n] it is a permutation of it. *)
Theorem sample_without_replacement (reg : list quote_info) (tape : list nat)
    (sel : node) (loptions : options) (content : list node) (k : Z) :
  node_options sel = Ok loptions →
  filtered loptions reg = Ok content →
  loptions !! "random" = Some (VInt k) →
  truthy (loptions !! "sections") = false →
  (1 ≤ k ≤ Z.of_nat (length content))%Z →
  ∃ sampled tape' places,
    resolve reg tape sel = Ok (sampled, tape')
    ∧ length sampled = Z.to_nat k
    ∧ NoDup places
    ∧ Forall2 (λ i x, content !! i = Some x) places sampled
    ∧ sampled ⊆+ content
    ∧ (NoDup content → NoDup sampled)
    ∧ length sampled ≤ length content
    ∧ (Z.to_nat k = length content → sampled ≡ₚ content).
Proof.
  intros Ho Hf Hk Hsec Hle.
  assert (Z.to_nat k ≤ length content) as Hle' by lia.
  destruct (draw_places tape content (Z.to_nat k) Hle') as (places & Hnd & Hpl).
  pose proof (draw_length tape content (Z.to_nat k) Hle') as Hlen.
  pose proof (draw_submseteq tape content (Z.to_nat k) Hle') as Hsub.
  rewrite (resolve_eval reg tape sel loptions content) by done.
  rewrite (random_block_sample loptions tape content k) by (done || lia).
  rewrite sample_ok by lia.
  destruct (draw tape content (Z.to_nat k)) as [sampled tape'].
  simpl in *. unfold sections_block. rewrite Hsec. simpl.
  exists sampled, tape', places. split_and!; try done.
  - by apply submseteq_NoDup.
  - lia.
  - intros Hall. apply submseteq_length_Permutation; [done|lia].
Qed.

Lemma sample_without_replacement_witness :
  ∃ sampled tape',
    resolve three_quotes [3; 4] random_selector = Ok (sampled, tape')
    ∧ length sampled = 2
    ∧ sampled ⊆+ quote <$> three_quotes.
Proof.
  destruct (sample_without_replacement three_quotes [3; 4] random_selector
              {[ "random" := VInt 2 ]} (quote <$> three_quotes) 2)
    as (sampled & tape' & places & Hres & Hlen & _ & _ & Hsub & _);
    [reflexivity|reflexivity|reflexivity|reflexivity|simpl; lia|].
  exists sampled, tape'. split; [exact Hres|]. split; [exact Hlen|exact Hsub].
Defined.

(** C6.  When the requested count exceeds the number of filtered
    entries, [sample] raises [ValueError]; nothing catches it, so resolving
    the selector raises it and so does [process_quote_nodes], once the
    selectors met before this one have been resolved. *)
Theorem sample_larger_than_population (e : env) (tape : list nat)
    (doctree : node) (pre post : list occurrence) (occ : occurrence)
    (out : list (list node)) (tape1 : list nat) (loptions : options)
    (content : list node) (k : Z) :
  traverse quotes doctree = pre ++ occ :: post →
  for_each (resolve_step (registry e)) ([], tape) pre = Ok (out, tape1) →
  node_options (occ_node occ) = Ok loptions →
  filtered loptions (registry e) = Ok content →
  loptions !! "random" = Some (VInt k) →
  (Z.of_nat (length content) < k)%Z →
  sample tape1 content k = Raise ValueError
  ∧ resolve (registry e) tape1 (occ_node occ) = Raise ValueError
  ∧ process_quote_nodes e tape doctree = Raise ValueError.
Proof.
  intros Htr Hpre Ho Hf Hk Hlt.
  assert (resolve (registry e) tape1 (occ_node occ) = Raise ValueError) as Hres.
  { rewrite (resolve_eval _ _ _ loptions content) by done.
    rewrite (random_block_sample loptions tape1 content k) by (done || lia).
    by rewrite sample_raises. }
  split_and!; [by apply sample_raises|done|].
  by eapply process_quote_nodes_raises.
Qed.

(** C6, at a selector that asks for two entries of an empty registry. *)
Lemma sample_larger_than_population_witness :
  sample [] ([] : list node) 2 = Raise ValueError
  ∧ resolve [] [] random_selector = Raise ValueError
  ∧ process_quote_nodes sample_env [] (document [random_selector])
    = Raise ValueError.
Proof.
  apply (sample_larger_than_population sample_env [] (document [random_selector])
           [] []
           {| occ_siblings := [random_selector]; occ_index := 0;
              occ_node := random_selector |}
           [] [] {[ "random" := VInt 2 ]} [] 2);
    reflexivity.
Defined.

(** ** The sections option *)

Lemma random_block_fits (loptions : options) (tape : list nat)
    (content : list node) :
  random_fits loptions (length content) = true →
  ∃ sampled tape', random_block loptions tape content = Ok (sampled, tape').
Proof.
  unfold random_fits, random_block, subscript.
  destruct (loptions !! "random") as [[s|k|t]|] eqn:Hr; simpl.
  - intros ->%negb_true_iff. by eauto.
  - intros [H0 Hk]%andb_true_iff. case_bool_decide; [|by eauto].
    simpl. unfold sample. rewrite H0, Hk. simpl.
    destruct (draw tape content (Z.to_nat k)). by eauto.
  - intros ->%negb_true_iff. by eauto.
  - by eauto.
Qed.

(** With a true [sections] option no content is ever handed over. *)
Lemma sections_never_resolves (reg : list quote_info) (tape : list nat)
    (sel : node) (loptions : options) :
  node_options sel = Ok loptions →
  truthy (loptions !! "sections") = true →
  ∃ ex, resolve reg tape sel = Raise ex.
Proof.
  intros Ho Hsec. unfold resolve. rewrite Ho. simpl.
  destruct (filtered loptions reg) as [content|ex]; simpl; [|by eauto].
  destruct (random_block loptions tape content) as [[sampled tape']|ex];
    simpl; [|by eauto].
  unfold sections_block. rewrite Hsec. by eauto.
Qed.

(** C9, as the code has it.  When a selector with a true [sections]
    option is reached and the steps before the sections block succeed (the
    filters evaluate, and the [random] option is absent, false, or a count
    between 0 and the number of filtered entries), resolving the selector
    raises [NotImplementedError] and so does [process_quote_nodes]. *)
Theorem sections_not_implemented (e : env) (tape : list nat)
    (doctree : node) (pre post : list occurrence) (occ : occurrence)
    (out : list (list node)) (tape1 : list nat) (loptions : options)
    (content : list node) :
  traverse quotes doctree = pre ++ occ :: post →
  for_each (resolve_step (registry e)) ([], tape) pre = Ok (out, tape1) →
  node_options (occ_node occ) = Ok loptions →
  truthy (loptions !! "sections") = true →
  filtered loptions (registry e) = Ok content →
  random_fits loptions (length content) = true →
  resolve (registry e) tape1 (occ_node occ) = Raise NotImplementedError
  ∧ process_quote_nodes e tape doctree = Raise NotImplementedError.
Proof.
  intros Htr Hpre Ho Hsec Hf Hfits.
  assert (resolve (registry e) tape1 (occ_node occ)
          = Raise NotImplementedError) as Hres.
  { rewrite (resolve_eval _ _ _ loptions content) by done.
    destruct (random_block_fits loptions tape1 content Hfits)
      as (sampled & tape' & ->).
    simpl. unfold sections_block. by rewrite Hsec. }
  split; [done|]. by eapply process_quote_nodes_raises.
Qed.

Lemma sections_not_implemented_witness :
  resolve three_quotes [] sections_selector = Raise NotImplementedError
  ∧ process_quote_nodes three_quotes_env [] (document [sections_selector])
    = Raise NotImplementedError.
Proof.
  apply (sections_not_implemented three_quotes_env []
           (document [sections_selector]) [] []
           {| occ_siblings := [sections_selector]; occ_index := 0;
              occ_node := sections_selector |}
           [] [] {[ "random" := VInt 1; "sections" := VStr "date" ]}
           (quote <$> three_quotes));
    reflexivity.
Defined.

(** C9, as stated: with an empty registry the sample of one entry fails
    before the sections option is looked at. *)
Lemma sections_masked_by_sample :
  node_options sections_selector
  = Ok {[ "random" := VInt 1; "sections" := VStr "date" ]}
  ∧ truthy (({[ "random" := VInt 1; "sections" := VStr "date" ]} : options)
              !! "sections") = true
  ∧ process_quote_nodes sample_env [] (document [sections_selector])
    = Raise ValueError
  ∧ process_quote_nodes sample_env [] (document [sections_selector])
    ≠ Raise NotImplementedError.
Proof. split_and!; [reflexivity..|]. by vm_compute. Qed.

(** ** The attribution of a quote entry *)

Section attribution.
Implicit Types (s t u : string) (raw o : gmap string string) (n : node).

Lemma append_assoc s t u : (s +:+ t) +:+ u = s +:+ (t +:+ u).
Proof.
  induction s as [|c s IH]; [done|]. by rewrite !append_String, IH.
Qed.

Lemma append_nil_r s : s +:+ "" = s.
Proof. induction s as [|c s IH]; [done|]. by rewrite append_String, IH. Qed.

Lemma contains_suffix s t : contains (s +:+ t) t.
Proof. exists s, "". by rewrite append_nil_r. Qed.

Lemma contains_trans s t u : contains s t → contains t u → contains s u.
Proof.
  intros (p1 & q1 & ->) (p2 & q2 & ->). exists (p1 +:+ p2), (q2 +:+ q1).
  by rewrite !append_assoc.
Qed.

Lemma astext_cons c cl ids l op x (ch : list node) :
  astext (Element c cl ids l op (x :: ch))
  = astext x +:+ astext (Element c cl ids l op ch).
Proof. done. Qed.

Lemma astext_child c cl ids l op (ch : list node) x :
  x ∈ ch → contains (astext (Element c cl ids l op ch)) (astext x).
Proof.
  induction 1 as [x ch|x y ch _ (pre & post & IH)]; rewrite astext_cons.
  - exists "", (astext (Element c cl ids l op ch)). done.
  - exists (astext y +:+ pre), post. by rewrite IH, append_assoc.
Qed.

Lemma astext_inline t el :
  astext (text_element nodes_inline ("  " +:+ t) [el] []) = "  " +:+ t.
Proof.
  unfold text_element. rewrite decide_False by done. simpl.
  apply append_nil_r.
Qed.

Lemma reformat_lookup key f raw :
  reformat key f raw !! key = f <$> raw !! key.
Proof.
  unfold reformat. destruct (raw !! key) eqn:Hk; simpl; [|done].
  by rewrite lookup_insert_eq.
Qed.

Lemma reformat_lookup_ne key key' f raw :
  key ≠ key' → reformat key f raw !! key' = raw !! key'.
Proof.
  intros Hne. unfold reformat. destruct (raw !! key); [|done].
  by rewrite lookup_insert_ne.
Qed.

Lemma signature_line o el v :
  el ∈ ["author"; "date"; "affiliation"; "source"] →
  o !! el = Some v →
  text_element nodes_inline ("  " +:+ v) [el] [] ∈ signature_lines o.
Proof.
  intros Hel Hv. unfold signature_lines. apply list_elem_of_omap.
  exists el. split; [done|]. by rewrite Hv.
Qed.

(** An option shown in the attribution: its line is a child, and its
    text is part of the text of the attribution. *)
Lemma attribution_shows o el v :
  el ∈ ["author"; "date"; "affiliation"; "source"] →
  o !! el = Some v →
  let attribution := Element nodes_attribution [] [] None None
                       (Text "--" :: signature_lines o) in
  text_element nodes_inline ("  " +:+ v) [el] [] ∈ children attribution
  ∧ contains (astext attribution) v.
Proof.
  intros Hel Hv attribution.
  assert (text_element nodes_inline ("  " +:+ v) [el] []
          ∈ children attribution) as Hin.
  { simpl. right. by apply signature_line. }
  split; [done|]. eapply contains_trans.
  - by apply astext_child.
  - rewrite astext_inline. apply contains_suffix.
Qed.
End attribution.

(** C8.  [Quote.run] always returns a target and a quote entry whose
    block quote ends in an attribution.  When a date was given, the
    attribution has a line of text ["  [<date>]"] and so its text contains
    ["[<date>]"]; when a source was given, it has a line
    ["  Source: <source>"] and its text contains ["Source: <source>"].
    The entry's options hold the same formatted values. *)
Theorem attribution_date_source (e : env) (raw : gmap string string)
    (content : list string) (ln : nat) :
  ∃ targetnode para attribution o e',
    Quote_run e raw content ln
    = Ok ([targetnode;
           Element quote_node [] [] (Some ln) (Some o)
             [Element nodes_block_quote ["epigraph"] [] None None
                [para; attribution]]], e')
    ∧ isinstance attribution nodes_attribution = true
    ∧ (∀ d, raw !! "date" = Some d →
         text_element nodes_inline ("  " +:+ "[" +:+ d +:+ "]") ["date"] []
           ∈ children attribution
         ∧ contains (astext attribution) ("[" +:+ d +:+ "]")
         ∧ o !! "date" = Some (VStr ("[" +:+ d +:+ "]")))
    ∧ (∀ s, raw !! "source" = Some s →
         text_element nodes_inline ("  " +:+ "Source: " +:+ s) ["source"] []
           ∈ children attribution
         ∧ contains (astext attribution) ("Source: " +:+ s)
         ∧ o !! "source" = Some (VStr ("Source: " +:+ s))).
Proof.
  unfold Quote_run, _prep_tags.
  set (o := reformat "source" format_source (reformat "date" format_date raw)).
  assert (∀ d, raw !! "date" = Some d → o !! "date" = Some (format_date d))
    as Hdate.
  { intros d Hd. unfold o.
    by rewrite reformat_lookup_ne, reformat_lookup, Hd. }
  assert (∀ s, raw !! "source" = Some s → o !! "source" = Some (format_source s))
    as Hsource.
  { intros s Hs. unfold o.
    by rewrite reformat_lookup, reformat_lookup_ne, Hs. }
  assert (∃ s, default (VStr "") ((VStr <$> o) !! "tags") = VStr s) as [s ->].
  { rewrite lookup_fmap. destruct (o !! "tags"); by eauto. }
  simpl. do 5 eexists. split; [done|]. split; [done|]. split.
  - intros d Hd. specialize (Hdate d Hd).
    destruct (attribution_shows o "date" (format_date d)) as [Hin Hc];
      [set_solver|done|].
    split_and!; [done..|].
    by rewrite lookup_insert_ne, lookup_fmap, Hdate.
  - intros s' Hs. specialize (Hsource s' Hs).
    destruct (attribution_shows o "source" (format_source s')) as [Hin Hc];
      [set_solver|done|].
    split_and!; [done..|].
    by rewrite lookup_insert_ne, lookup_fmap, Hsource.
Qed.

Lemma attribution_date_source_witness :
  ∃ targetnode para attribution o e',
    Quote_run sample_env {[ "date" := "1990-01-01"; "source" := "a letter" ]}
      ["quote.py is a wonderful extension"] 12
    = Ok ([targetnode;
           Element quote_node [] [] (Some 12) (Some o)
             [Element nodes_block_quote ["epigraph"] [] None None
                [para; attribution]]], e')
    ∧ contains (astext attribution) "[1990-01-01]"
    ∧ contains (astext attribution) "Source: a letter".
Proof.
  destruct (attribution_date_source sample_env
              {[ "date" := "1990-01-01"; "source" := "a letter" ]}
              ["quote.py is a wonderful extension"] 12)
    as (targetnode & para & attribution & o & e' & Hrun & _ & Hdate & Hsource).
  exists targetnode, para, attribution, o, e'.
  split; [exact Hrun|]. split.
  - exact (proj1 (proj2 (Hdate "1990-01-01" eq_refl))).
  - exact (proj1 (proj2 (Hsource "a letter" eq_refl))).
Defined.

(** ** What the directives hand to the callbacks *)

Lemma Quote_run_wf (e : env) (raw : gmap string string)
    (content : list string) (ln : nat) :
  ∃ targetnode node e',
    Quote_run e raw content ln = Ok ([targetnode; node], e')
    ∧ isinstance node quote_node = true
    ∧ wf_quote node = true.
Proof.
  destruct (Quote_run_ok e raw content ln) as (tn & block & o & Hrun & Ho).
  do 3 eexists. split; [done|]. split; [done|].
  unfold wf_quote. simpl. by rewrite Ho.
Qed.

Lemma Quotes_run_wf (self_options : options) :
  (∀ v, self_options !! "tags" = Some v → ∃ s, v = VStr s) →
  ∃ o, Quotes_run self_options = Ok [Element quotes [] [] None (Some o) []]
       ∧ wf_selector o = true
       ∧ ∀ key, key ≠ "tags" → o !! key = self_options !! key.
Proof.
  intros Htags. unfold Quotes_run, _prep_tags, wf_selector.
  destruct (self_options !! "tags") as [v|] eqn:Hv.
  - destruct (Htags v eq_refl) as [s ->].
    rewrite decide_True by by eexists. simpl.
    eexists. split; [done|]. rewrite lookup_insert_eq. split; [done|].
    intros key Hkey. by rewrite lookup_insert_ne.
  - rewrite decide_False by by intros [? [=]]. simpl.
    exists self_options. by rewrite Hv.
Qed.

(** ** Collecting *)

Section collecting.
Implicit Types (occ : occurrence) (reg : list quote_info) (e : env).

Lemma getitem_before {A} (l : list A) (i : nat) :
  getitem l (Z.of_nat (S i) - 1)
  = from_option Ok (Raise IndexError) (l !! i).
Proof.
  unfold getitem. replace (Z.of_nat (S i) - 1)%Z with (Z.of_nat i) by lia.
  replace (Z.of_nat i <? 0)%Z with false by (symmetry; apply Z.ltb_ge; lia).
  rewrite Nat2Z.id. cbv zeta.
  replace (0 <=? Z.of_nat i)%Z with true by (symmetry; apply Z.leb_le; lia).
  simpl. destruct (Z.ltb_spec (Z.of_nat i) (Z.of_nat (length l))); [done|].
  rewrite lookup_ge_None_2; [done|lia].
Qed.

Lemma getitem_minus_one {A} (l : list A) :
  getitem l (-1) = from_option Ok (Raise IndexError) (last l).
Proof.
  unfold getitem. cbv zeta. rewrite last_lookup.
  destruct l as [|x l]; [done|]. simpl length.
  replace (-1 <? 0)%Z with true by done.
  replace (-1 + Z.of_nat (S (length l)))%Z with (Z.of_nat (length l)) by lia.
  rewrite Nat2Z.id.
  replace (0 <=? Z.of_nat (length l))%Z with true
    by (symmetry; apply Z.leb_le; lia).
  replace (Z.of_nat (length l) <? Z.of_nat (S (length l)))%Z with true
    by (symmetry; apply Z.ltb_lt; lia).
  done.
Qed.

Lemma find_target_eval occ :
  find_target occ = Ok (target_of (occ_siblings occ) (occ_index occ)).
Proof.
  unfold find_target, target_of. destruct (occ_index occ) as [|i].
  - change (Z.of_nat 0 - 1)%Z with (-1)%Z. rewrite getitem_minus_one.
    destruct (last (occ_siblings occ)) as [t|]; simpl; [|done].
    by destruct (isinstance t nodes_target).
  - rewrite getitem_before.
    destruct (occ_siblings occ !! i) as [t|]; simpl; [|done].
    by destruct (isinstance t nodes_target).
Qed.

Lemma collect_quote_eval doc reg occ :
  collect_quote doc reg occ = Ok (reg ++ [record_of doc occ]).
Proof. unfold collect_quote. by rewrite find_target_eval. Qed.

Lemma for_each_cons {A S} (body : S → A → result S) (s : S) (x : A)
    (l : list A) :
  for_each body s (x :: l) = (s' ← body s x; for_each body s' l).
Proof. done. Qed.

Lemma for_each_collect doc reg (occs : list occurrence) :
  for_each (collect_quote doc) reg occs
  = Ok (reg ++ (record_of doc <$> occs)).
Proof.
  revert reg. induction occs as [|occ occs IH]; intros reg.
  - simpl. by rewrite app_nil_r.
  - rewrite for_each_cons, collect_quote_eval. simpl.
    by rewrite IH, <-app_assoc.
Qed.

(** Collection never fails; it appends one record for each quote entry
    of the document, in document order, behind the records that were
    there. *)
Lemma process_quotes_appends e doctree :
  process_quotes e doctree
  = Ok (set_quote_all_quotes e
          (registry e
           ++ (record_of (env_docname e) <$> traverse quote_node doctree))).
Proof.
  unfold process_quotes. cbv zeta. rewrite for_each_collect.
  by destruct e as [doc n [l|]].
Qed.
End collecting.

(** C10: a quote entry that is the first child of its parent has no
    preceding sibling, yet it is recorded with the last child of the
    parent as its target when that child is a target. *)
Theorem quote_first_takes_last_target :
  traverse quote_node quote_first_doctree
  = [{| occ_siblings := children quote_first_doctree;
        occ_index := 0;
        occ_node := tagged_quote 4 {[ "" ]} |}]
  ∧ process_quotes sample_env quote_first_doctree
    = Ok (set_quote_all_quotes sample_env
            [{| docname := "index";
                lineno := Some 4;
                quote := tagged_quote 4 {[ "" ]};
                target := Some (Element nodes_target [] ["later"] None None [])
             |}]).
Proof. split; reflexivity. Qed.

(** * Further properties

    ** Collecting and purging *)

Section collected.
Implicit Types (e : env) (doctree q s : node) (pre post : list node).

Lemma traverse_Element c cls cl ids l op (ch : list node) :
  traverse c (Element cls cl ids l op ch) = traverse_children c ch 0 ch.
Proof. done. Qed.

Lemma traverse_children_elem_of c (ch pre post : list node) q pos :
  isinstance q c = true →
  {| occ_siblings := ch; occ_index := pos + length pre; occ_node := q |}
  ∈ traverse_children c ch pos (pre ++ q :: post).
Proof.
  intros Hq. revert pos. induction pre as [|x pre IH]; intros pos; simpl.
  - rewrite Hq, Nat.add_0_r. by left.
  - apply elem_of_app. right. apply elem_of_app. right.
    replace (pos + S (length pre)) with (S pos + length pre) by lia.
    apply IH.
Qed.

Lemma registry_set e (l : list quote_info) :
  registry (set_quote_all_quotes e l) = l.
Proof. done. Qed.

Lemma filter_all {A} (P : A → Prop) `{!∀ x, Decision (P x)} (l : list A) :
  Forall P l → filter P l = l.
Proof.
  induction 1 as [|x l Hx _ IH]; [done|].
  by rewrite filter_cons, decide_True, IH.
Qed.

Lemma filter_none {A} (P : A → Prop) `{!∀ x, Decision (P x)} (l : list A) :
  Forall (λ x, ¬ P x) l → filter P l = [].
Proof.
  induction 1 as [|x l Hx _ IH]; [done|].
  by rewrite filter_cons, decide_False, IH.
Qed.
End collected.

(** X1.  [process_quotes] never fails.  It leaves the records that were in
    the registry in place and puts behind them one record for each quote
    entry of the document, in document order; each new record carries the
    name of the document being read, the node and the node's line. *)
Theorem process_quotes_records (e : env) (doctree : node) :
  ∃ new,
    process_quotes e doctree = Ok (set_quote_all_quotes e (registry e ++ new))
    ∧ quote <$> new = occ_node <$> traverse quote_node doctree
    ∧ Forall (λ qi, docname qi = env_docname e
                    ∧ lineno qi = node_line (quote qi)) new.
Proof.
  exists (record_of (env_docname e) <$> traverse quote_node doctree).
  split_and!.
  - apply process_quotes_appends.
  - by rewrite <-list_fmap_compose.
  - apply Forall_fmap, Forall_forall. by intros occ _.
Qed.

Lemma preceded_occurrence (pre post : list node) (s q : node) :
  isinstance q quote_node = true →
  {| occ_siblings := pre ++ s :: q :: post;
     occ_index := S (length pre);
     occ_node := q |}
  ∈ traverse quote_node (document (pre ++ s :: q :: post)).
Proof.
  intros Hq. unfold document. rewrite traverse_Element.
  pose proof (traverse_children_elem_of quote_node
                (pre ++ s :: q :: post) (pre ++ [s]) post q 0 Hq) as Hin.
  rewrite length_app, <-app_assoc in Hin. simpl in Hin.
  by rewrite Nat.add_1_r in Hin.
Qed.

(** X2.  A quote entry that is a child of the document root and has a
    sibling right before it is recorded with that sibling as its target
    when the sibling is a target node, and without a target otherwise. *)
Theorem process_quotes_preceding_sibling (e : env) (pre post : list node)
    (s q : node) :
  isinstance q quote_node = true →
  ∃ reg,
    process_quotes e (document (pre ++ s :: q :: post))
    = Ok (set_quote_all_quotes e reg)
    ∧ {| docname := env_docname e;
         lineno := node_line q;
         quote := q;
         target := if isinstance s nodes_target then Some s else None |}
      ∈ reg.
Proof.
  intros Hq. eexists. split; [apply process_quotes_appends|].
  apply elem_of_app. right. apply list_elem_of_fmap.
  eexists. split; [|by apply preceded_occurrence].
  unfold record_of, target_of. simpl. by rewrite list_lookup_middle.
Qed.

Lemma process_quotes_preceding_sibling_witness :
  ∃ reg,
    process_quotes sample_env
      (document [later_target; tagged_quote 4 {[ "a" ]}])
    = Ok (set_quote_all_quotes sample_env reg)
    ∧ {| docname := "index"; lineno := Some 4;
         quote := tagged_quote 4 {[ "a" ]};
         target := Some later_target |} ∈ reg.
Proof.
  exact (process_quotes_preceding_sibling sample_env [] [] later_target
           (tagged_quote 4 {[ "a" ]}) eq_refl).
Defined.

Lemma Quote_run_shape (e : env) (raw : gmap string string)
    (content : list string) (ln : nat) :
  ∃ id block o e',
    Quote_run e raw content ln
    = Ok ([Element nodes_target ["epigraph"] [id] None None [];
           Element quote_node [] [] (Some ln) (Some o) [block]], e').
Proof.
  unfold Quote_run, _prep_tags. rewrite lookup_fmap.
  destruct (_ !! "tags"); simpl; by do 4 eexists.
Qed.

(** X3.  The two nodes [Quote.run] returns, put side by side among the
    children of the document root, are collected as one record: the quote
    entry with the directive's line, and the directive's own target node
    as its target. *)
Theorem Quote_run_collected (e e1 : env) (raw : gmap string string)
    (content : list string) (ln : nat) (pre post : list node) :
  ∃ targetnode node e' reg,
    Quote_run e raw content ln = Ok ([targetnode; node], e')
    ∧ process_quotes e1 (document (pre ++ [targetnode; node] ++ post))
      = Ok (set_quote_all_quotes e1 reg)
    ∧ {| docname := env_docname e1;
         lineno := Some ln;
         quote := node;
         target := Some targetnode |} ∈ reg.
Proof.
  destruct (Quote_run_shape e raw content ln) as (id & block & o & e' & Hrun).
  do 4 eexists. split; [done|]. split; [apply process_quotes_appends|].
  apply elem_of_app. right. apply list_elem_of_fmap.
  eexists. split; [|by apply preceded_occurrence].
  unfold record_of, target_of. simpl. by rewrite list_lookup_middle.
Qed.

Section purging.
Implicit Types (e : env) (reg : list quote_info) (d : string).

Lemma registry_purge e d :
  registry (purge_quotes e d) = filter (λ qi, docname qi ≠ d) (registry e).
Proof. by destruct e as [doc n [l|]]. Qed.

Lemma purge_quotes_set e reg d :
  purge_quotes (set_quote_all_quotes e reg) d
  = set_quote_all_quotes e (filter (λ qi, docname qi ≠ d) reg).
Proof. done. Qed.

Lemma filter_fmap_quote (P : node → Prop) `{!∀ x, Decision (P x)} reg :
  filter P (quote <$> reg) = quote <$> filter (λ qi, P (quote qi)) reg.
Proof.
  induction reg as [|qi reg IH]; [done|].
  rewrite fmap_cons, !filter_cons, IH. by case_decide.
Qed.
End purging.

(** X4.  Purging the document that was just read undoes the reading: when
    the registry held no record of the document, [purge_quotes] after
    [process_quotes] leaves the registry as it was, and reading the
    document again gives the environment of the first reading. *)
Theorem purge_after_collect (e : env) (doctree : node) :
  Forall (λ qi, docname qi ≠ env_docname e) (registry e) →
  ∃ e',
    process_quotes e doctree = Ok e'
    ∧ purge_quotes e' (env_docname e) = set_quote_all_quotes e (registry e)
    ∧ process_quotes (purge_quotes e' (env_docname e)) doctree = Ok e'.
Proof.
  intros Hreg. eexists. split; [apply process_quotes_appends|].
  rewrite purge_quotes_set, filter_app, filter_all by done.
  rewrite filter_none, app_nil_r.
  - split; [done|]. by rewrite process_quotes_appends.
  - apply Forall_fmap, Forall_forall. intros occ _ Hne. by apply Hne.
Qed.

Lemma purge_after_collect_witness :
  ∃ e',
    process_quotes news_env quote_first_doctree = Ok e'
    ∧ purge_quotes e' "news" = news_env
    ∧ process_quotes (purge_quotes e' "news") quote_first_doctree = Ok e'.
Proof.
  apply (purge_after_collect news_env quote_first_doctree).
  repeat constructor; discriminate.
Defined.

(** X5.  Purging is idempotent, and purging two documents gives the same
    environment in either order. *)
Theorem purge_quotes_idempotent_commute (e : env) (d1 d2 : string) :
  purge_quotes (purge_quotes e d1) d1 = purge_quotes e d1
  ∧ purge_quotes (purge_quotes e d1) d2 = purge_quotes (purge_quotes e d2) d1.
Proof.
  destruct e as [doc n [l|]]; [|done]. unfold purge_quotes. simpl.
  unfold set_quote_all_quotes. simpl. split; do 2 f_equal.
  - apply list_filter_filter_l. done.
  - rewrite !list_filter_filter. apply list_filter_iff. tauto.
Qed.

(** X6.  Nothing in [process_quotes] looks for records that are already
    there: reading the same document twice without a purge in between
    records each of its quote entries twice. *)
Theorem process_quotes_twice (e : env) (doctree : node) :
  ∃ new e1 e2,
    process_quotes e doctree = Ok e1
    ∧ process_quotes e1 doctree = Ok e2
    ∧ registry e1 = registry e ++ new
    ∧ registry e2 = registry e ++ new ++ new
    ∧ length new = length (traverse quote_node doctree).
Proof.
  exists (record_of (env_docname e) <$> traverse quote_node doctree).
  do 2 eexists. split_and!.
  - apply process_quotes_appends.
  - apply process_quotes_appends.
  - done.
  - by rewrite !registry_set, <-app_assoc.
  - by rewrite length_fmap.
Qed.

(** X7.  Purging a document takes its quotes, and no others, out of what
    every selector finds: the content filtered from the purged registry is
    the quote entries of the records that are of another document and
    pass the filters, in registry order. *)
Theorem filtered_after_purge (loptions : options) (e : env) (d : string) :
  wf_selector loptions = true →
  forallb (λ qi, wf_quote (quote qi)) (registry e) = true →
  filtered loptions (registry (purge_quotes e d))
  = Ok (quote <$> filter (λ qi, passes (filters loptions) (quote qi)
                                ∧ docname qi ≠ d) (registry e)).
Proof.
  intros Hsel Hreg. rewrite registry_purge, filtered_eval; [|done|].
  - by rewrite filter_fmap_quote, list_filter_filter.
  - apply Is_true_true_2, forallb_True in Hreg.
    apply Is_true_true_1, forallb_True.
    apply Forall_forall. intros qi [_ Hqi]%list_elem_of_filter.
    by eapply Forall_forall in Hreg.
Qed.

Lemma filtered_after_purge_witness :
  filtered {[ "tags" := VTags {[ "a"; "b" ]} ]}
    (registry (purge_quotes three_quotes_env "other"))
  = Ok [tagged_quote 1 {[ "a"; "b" ]}].
Proof.
  rewrite (filtered_after_purge {[ "tags" := VTags {[ "a"; "b" ]} ]}
             three_quotes_env "other"); reflexivity.
Defined.

(** ** Selecting *)

Section selecting.
Implicit Types (loptions o : options) (reg : list quote_info) (q sel : node)
  (tape : list nat).

Lemma select_cases fs (acc content : list node) (qi : quote_info) :
  select fs acc qi = Ok content →
  content = acc ∨ content = acc ++ [quote qi].
Proof.
  unfold select. cbv zeta.
  destruct (comprehension (λ f, f (quote qi)) fs) as [bs|]; simpl; [|done].
  destruct (reduce_and bs); simpl; intros [= <-]; auto.
Qed.

Lemma for_each_select_sublist fs reg (acc content : list node) :
  for_each (select fs) acc reg = Ok content →
  ∃ more, content = acc ++ more ∧ more `sublist_of` quote <$> reg.
Proof.
  revert acc. induction reg as [|qi reg IH]; intros acc.
  - simpl. intros [= <-]. exists []. by rewrite app_nil_r.
  - rewrite for_each_cons.
    destruct (select fs acc qi) as [acc'|] eqn:Hsel; simpl; [|done].
    apply select_cases in Hsel as [-> | ->];
      intros (more & -> & Hsub)%IH.
    + exists more. split; [done|]. by apply sublist_cons.
    + exists (quote qi :: more). rewrite <-app_assoc. split; [done|].
      by apply sublist_skip.
Qed.

Lemma filtered_sublist loptions reg content :
  filtered loptions reg = Ok content → content `sublist_of` quote <$> reg.
Proof. by intros (more & -> & Hsub)%for_each_select_sublist. Qed.

Lemma random_block_submseteq loptions tape (content sampled : list node) tape' :
  random_block loptions tape content = Ok (sampled, tape') →
  sampled ⊆+ content.
Proof.
  unfold random_block. destruct (truthy _); simpl; [|by intros [= <- _]].
  destruct (subscript _ _) as [[| k |]|]; simpl; try done.
  unfold sample. destruct (_ && _) eqn:Hk; simpl; [|done].
  apply andb_true_iff in Hk as [H0%Z.leb_le Hn%Z.leb_le].
  pose proof (draw_submseteq tape content (Z.to_nat k) ltac:(lia)) as Hsub.
  destruct (draw tape content (Z.to_nat k)). by intros [= <- _].
Qed.



End selecting.

(** X8.  A selector that asks for tags and for a group lets a candidate
    through exactly when the candidate has every requested tag and is of
    the requested group. *)
Theorem tags_and_group_filter (loptions o : options) (T C : gset string)
    (G : string) (q : node) :
  loptions !! "tags" = Some (VTags T) →
  loptions !! "group" = Some (VStr G) →
  node_options q = Ok o →
  o !! "tags" = Some (VTags C) →
  filters loptions = [tags_filter (VTags T); group_filter loptions]
  ∧ (passes (filters loptions) q
     ↔ T ⊆ C ∧ default (VStr "") (o !! "group") = VStr G).
Proof.
  intros HT HG Ho HC.
  assert (filters loptions = [tags_filter (VTags T); group_filter loptions])
    as Hfs.
  { unfold filters. rewrite HT, HG. by rewrite decide_True by by eexists. }
  split; [done|]. unfold passes. rewrite Hfs, !Forall_cons, Forall_nil.
  rewrite (tags_filter_eval T C q o), (group_filter_eval loptions (VStr G) q o)
    by done.
  split.
  - intros [[= ?%bool_decide_eq_true] [[= ?%bool_decide_eq_true] _]]. done.
  - intros [? ?]. by rewrite !bool_decide_true.
Qed.

Lemma tags_and_group_filter_witness :
  passes (filters {[ "tags" := VTags {[ "a" ]}; "group" := VStr "" ]})
    (tagged_quote 1 {[ "a"; "b" ]})
  ↔ ({[ "a" ]} : gset string) ⊆ {[ "a"; "b" ]}
    ∧ default (VStr "")
        (({[ "tags" := VTags {[ "a"; "b" ]} ]} : options) !! "group")
      = VStr "".
Proof.
  apply (tags_and_group_filter
           {[ "tags" := VTags {[ "a" ]}; "group" := VStr "" ]}
           {[ "tags" := VTags {[ "a"; "b" ]} ]} {[ "a" ]} {[ "a"; "b" ]} ""
           (tagged_quote 1 {[ "a"; "b" ]}));
    reflexivity.
Defined.

(** X9.  A [quotes] directive whose [tags] option is given but empty asks
    for the empty tag: it finds the quotes whose tag set holds the empty
    string, among them every quote whose directive had no [tags] option,
    and no others. *)
Theorem empty_tags_selector (self_options : options) :
  self_options !! "tags" = Some (VStr "") →
  self_options !! "group" = None →
  ∃ o,
    Quotes_run self_options = Ok [Element quotes [] [] None (Some o) []]
    ∧ (∀ q qo C, node_options q = Ok qo → qo !! "tags" = Some (VTags C) →
                 (passes (filters o) q ↔ "" ∈ C))
    ∧ (∀ e raw content ln, raw !! "tags" = None →
         ∃ targetnode node e',
           Quote_run e raw content ln = Ok ([targetnode; node], e')
           ∧ passes (filters o) node).
Proof.
  intros Ht Hg.
  set (o := <["tags" := VTags {[ "" ]}]> self_options).
  assert (Quotes_run self_options = Ok [Element quotes [] [] None (Some o) []])
    as Hrun.
  { unfold Quotes_run, _prep_tags. rewrite Ht.
    rewrite decide_True by by eexists. reflexivity. }
  assert (∀ q qo C, node_options q = Ok qo → qo !! "tags" = Some (VTags C) →
                    (passes (filters o) q ↔ "" ∈ C)) as Hpass.
  { intros q qo C Hqo HC.
    rewrite (passes_tags_only o {[ "" ]} C q qo); [set_solver|..|done|done].
    - unfold o. by rewrite lookup_insert_eq.
    - unfold o. by rewrite lookup_insert_ne. }
  exists o. split_and!; [done..|].
  intros e raw content ln Hraw.
  destruct (Quote_run_ok e raw content ln) as (tn & block & qo & Hq & Hqo).
  do 3 eexists. split; [done|].
  rewrite Hraw in Hqo. eapply Hpass; [done|exact Hqo|].
  apply elem_of_list_to_set. simpl. apply elem_of_cons. by left.
Qed.

Lemma empty_tags_selector_witness :
  ∃ o,
    Quotes_run {[ "tags" := VStr "" ]}
    = Ok [Element quotes [] [] None (Some o) []]
    ∧ (passes (filters o) (tagged_quote 1 {[ "" ]}) ↔ "" ∈ ({[ "" ]} : gset string)).
Proof.
  destruct (empty_tags_selector {[ "tags" := VStr "" ]})
    as (o & Hrun & Hpass & _); [reflexivity..|].
  exists o. split; [exact Hrun|].
  exact (Hpass (tagged_quote 1 {[ "" ]}) {[ "tags" := VTags {[ "" ]} ]}
           {[ "" ]} eq_refl eq_refl).
Defined.

(** X10.  A [quotes] directive without options puts every collected quote
    in its place, in registry order, whatever the quotes are, and draws
    no random number. *)
Theorem bare_quotes_lists_all (self_options : options)
    (reg : list quote_info) (tape : list nat) :
  self_options !! "tags" = None →
  self_options !! "group" = None →
  self_options !! "random" = None →
  self_options !! "sections" = None →
  ∃ sel,
    Quotes_run self_options = Ok [sel]
    ∧ resolve reg tape sel = Ok (quote <$> reg, tape).
Proof.
  intros Ht Hg Hr Hs. eexists. split.
  - unfold Quotes_run. rewrite Ht. by rewrite decide_False by by intros [? [=]].
  - unfold resolve. simpl. rewrite filtered_no_filter by done. simpl.
    unfold random_block, sections_block. by rewrite Hr, Hs.
Qed.

Lemma bare_quotes_lists_all_witness :
  ∃ sel,
    Quotes_run ∅ = Ok [sel]
    ∧ resolve three_quotes [7] sel = Ok (quote <$> three_quotes, [7]).
Proof. apply (bare_quotes_lists_all ∅ three_quotes [7]); reflexivity. Defined.



(** X12.  Whatever a selector asks for, the content it is replaced by is
    taken from the registry: no quote entry occurs in it more often than
    among the registry's records. *)
Theorem resolve_from_registry (reg : list quote_info) (tape tape' : list nat)
    (sel : node) (content : list node) :
  resolve reg tape sel = Ok (content, tape') →
  content ⊆+ quote <$> reg.
Proof.
  unfold resolve. destruct (node_options sel) as [loptions|]; simpl; [|done].
  destruct (filtered loptions reg) as [content0|] eqn:Hf; simpl; [|done].
  destruct (random_block loptions tape content0) as [[sampled tape1]|] eqn:Hr;
    simpl; [|done].
  unfold sections_block. destruct (truthy _); simpl; [done|].
  intros [= <- _]. etrans; [by eapply random_block_submseteq|].
  by eapply sublist_submseteq, filtered_sublist.
Qed.

Lemma resolve_from_registry_witness :
  [tagged_quote 1 {[ "a"; "b" ]}; tagged_quote 2 {[ "b" ]}]
  ⊆+ quote <$> three_quotes.
Proof.
  apply (resolve_from_registry three_quotes [3; 4] [] random_selector).
  reflexivity.
Defined.

(** ** Tags *)

Section tags.
Implicit Types (s r : string) (sep : ascii) (comps : list string)
  (o : options).

Lemma split_no_char_id sep s : no_char sep s = true → split sep s = [s].
Proof.
  unfold no_char. induction s as [|c s IH]; [done|]. simpl.
  intros [Hc%bool_decide_eq_true Hs]%andb_true_iff.
  by rewrite decide_False, IH.
Qed.

Lemma split_append_sep sep s r :
  no_char sep s = true → split sep (s +:+ String sep r) = s :: split sep r.
Proof.
  unfold no_char. induction s as [|c s IH].
  - intros _. rewrite append_nil_l. simpl. by rewrite decide_True.
  - rewrite append_String. simpl.
    intros [Hc%bool_decide_eq_true Hs]%andb_true_iff.
    by rewrite decide_False, IH.
Qed.

Lemma split_join sep comps :
  comps ≠ [] → Forall (λ p, no_char sep p = true) comps →
  split sep (join sep comps) = comps.
Proof.
  intros Hne Hcomps. induction Hcomps as [|x comps Hx Hcomps IH]; [done|].
  destruct comps as [|y comps].
  - by apply split_no_char_id.
  - rewrite join_cons_cons, split_append_sep by done. by rewrite IH.
Qed.

Lemma all_chars_append (P : ascii → bool) s r :
  all_chars P (s +:+ r) = all_chars P s && all_chars P r.
Proof.
  induction s as [|c s IH]; [done|].
  rewrite append_String. simpl. by rewrite IH, andb_assoc.
Qed.

Lemma strip_no_char sep s : no_char sep s = true → no_char sep (strip s) = true.
Proof.
  destruct (strip_trimmed s) as [(l & r & Hs & _) _]. unfold no_char.
  rewrite Hs at 1. rewrite !all_chars_append.
  by intros [_ [? _]%andb_true_iff]%andb_true_iff.
Qed.

Lemma strip_strip s : strip (strip s) = strip s.
Proof.
  symmetry. apply trimmed_strip.
  destruct (strip_trimmed s) as [_ [Hfirst Hlast]]. split_and!; [|done..].
  exists "", "". by rewrite append_nil_r.
Qed.

Lemma prep_tags_eval o s :
  default (VStr "") (o !! "tags") = VStr s →
  _prep_tags o
  = Ok (<["tags" := VTags (list_to_set (strip <$> split "," s))]> o).
Proof. intros Hs. unfold _prep_tags. by rewrite Hs. Qed.
End tags.

(** X13.  [_prep_tags] changes nothing but the [tags] option, and it works
    once: on the options it returns, where [tags] is a set, a second call
    raises [AttributeError]. *)
Theorem prep_tags_once (o o' : options) :
  _prep_tags o = Ok o' →
  (∀ key, key ≠ "tags" → o' !! key = o !! key)
  ∧ (∃ T, o' !! "tags" = Some (VTags T))
  ∧ _prep_tags o' = Raise AttributeError.
Proof.
  unfold _prep_tags at 1.
  destruct (default (VStr "") (o !! "tags")) as [s| |]; [|done..].
  intros [= <-]. split_and!.
  - intros key Hkey. by rewrite lookup_insert_ne.
  - eexists. by rewrite lookup_insert_eq.
  - unfold _prep_tags. by rewrite lookup_insert_eq.
Qed.

Lemma prep_tags_once_witness :
  _prep_tags {[ "tags" := VTags {[ "a"; "b" ]}; "random" := VInt 1 ]}
  = Raise AttributeError.
Proof.
  eapply (prep_tags_once {[ "tags" := VStr "a , b"; "random" := VInt 1 ]}).
  reflexivity.
Defined.

(** X14.  For tag names without a comma, the [tags] string that lists them
    separated by commas gives the set of the trimmed names: neither the
    whitespace around a name, nor the order, nor a repetition counts. *)
Theorem prep_tags_join (o : options) (comps : list string) :
  comps ≠ [] →
  Forall (λ p, no_char "," p = true) comps →
  _prep_tags (<["tags" := VStr (join "," comps)]> o)
  = Ok (<["tags" := VTags (list_to_set (strip <$> comps))]> o).
Proof.
  intros Hne Hcomps.
  rewrite (prep_tags_eval _ (join "," comps)) by by rewrite lookup_insert_eq.
  by rewrite split_join, insert_insert_eq.
Qed.

Lemma prep_tags_join_witness :
  _prep_tags (<["tags" := VStr (join "," ["b"; " a "; "b"])]> ∅)
  = Ok (<["tags" := VTags (list_to_set (strip <$> ["b"; " a "; "b"]))]> ∅).
Proof.
  apply (prep_tags_join ∅ ["b"; " a "; "b"]); [done|by repeat constructor].
Defined.

(** X15.  Every tag of the set [_prep_tags] makes is clean: it holds no
    comma, and trimming it changes nothing. *)
Theorem prep_tags_clean (o : options) (s : string) :
  default (VStr "") (o !! "tags") = VStr s →
  ∃ T : gset string,
    _prep_tags o = Ok (<["tags" := VTags T]> o)
    ∧ ∀ t, t ∈ T → no_char "," t = true ∧ strip t = t.
Proof.
  intros Hs. eexists. split; [by apply prep_tags_eval|].
  intros t (c & -> & Hc)%elem_of_list_to_set%list_elem_of_fmap. split.
  - apply strip_no_char.
    by eapply Forall_forall in Hc; [|apply split_no_char].
  - apply strip_strip.
Qed.

Lemma prep_tags_clean_witness :
  ∃ T : gset string,
    _prep_tags {[ "tags" := VStr " a b ,c" ]}
    = Ok (<["tags" := VTags T]> {[ "tags" := VStr " a b ,c" ]})
    ∧ ∀ t, t ∈ T → no_char "," t = true ∧ strip t = t.
Proof.
  apply (prep_tags_clean {[ "tags" := VStr " a b ,c" ]} " a b ,c").
  reflexivity.
Defined.

(** ** From the directives to the selection *)

Section directives.
Implicit Types (e : env) (raw : gmap string string) (o loptions : options).

Lemma reformat_is_Some key f raw (k : string) :
  is_Some (reformat key f raw !! k) ↔ is_Some (raw !! k).
Proof.
  destruct (decide (key = k)) as [<-|Hne].
  - rewrite reformat_lookup. apply fmap_is_Some.
  - by rewrite reformat_lookup_ne.
Qed.

(** The options of the quote entry [Quote.run] makes: the formatted date
    and source, the tag set, and every other option as it was given. *)
Lemma Quote_run_options e raw (content : list string) (ln : nat) :
  ∃ targetnode block o e',
    Quote_run e raw content ln
    = Ok ([targetnode; Element quote_node [] [] (Some ln) (Some o) [block]],
          e')
    ∧ o !! "tags"
      = Some (VTags (list_to_set
                       (strip <$> split "," (default "" (raw !! "tags")))))
    ∧ ∀ key, key ≠ "tags" → key ≠ "date" → key ≠ "source" →
             o !! key = VStr <$> raw !! key.
Proof.
  unfold Quote_run.
  set (o := reformat "source" format_source (reformat "date" format_date raw)).
  assert (∀ key, key ≠ "date" → key ≠ "source" → o !! key = raw !! key)
    as Ho.
  { intros key Hd Hs. unfold o. by rewrite !reformat_lookup_ne. }
  rewrite (prep_tags_eval _ (default "" (raw !! "tags"))).
  - simpl. do 4 eexists. split; [done|]. split.
    + by rewrite lookup_insert_eq.
    + intros key Ht Hd Hs. by rewrite lookup_insert_ne, lookup_fmap, Ho.
  - rewrite lookup_fmap, Ho by done. by destruct (raw !! "tags").
Qed.
End directives.

(** X16.  The attribution of a quote entry starts with the dashes and has
    a line for an option exactly when the option is one of author, date,
    affiliation and source and was given; the group and the tags are never
    shown. *)
Theorem attribution_lines (e : env) (raw : gmap string string)
    (content : list string) (ln : nat) :
  ∃ targetnode para attribution o e',
    Quote_run e raw content ln
    = Ok ([targetnode;
           Element quote_node [] [] (Some ln) (Some o)
             [Element nodes_block_quote ["epigraph"] [] None None
                [para; attribution]]], e')
    ∧ head (children attribution) = Some (Text "--")
    ∧ ∀ el, (∃ line, line ∈ children attribution ∧ node_classes line = [el])
            ↔ el ∈ shown_options ∧ is_Some (raw !! el).
Proof.
  unfold Quote_run.
  set (o := reformat "source" format_source (reformat "date" format_date raw)).
  destruct (_prep_tags (VStr <$> o)) as [o'|] eqn:Hprep.
  2: { unfold _prep_tags in Hprep. rewrite lookup_fmap in Hprep.
       by destruct (o !! "tags"). }
  simpl. do 5 eexists. split; [done|]. split; [done|].
  intros el. simpl. split.
  - intros (line & [->|Hline]%elem_of_cons & Hcl); [done|].
    unfold signature_lines in Hline.
    apply list_elem_of_omap in Hline as (el' & Hel' & Hline).
    destruct (o !! el') as [v|] eqn:Hv; [|done].
    simpl in Hline. injection Hline as <-. simpl in Hcl.
    injection Hcl as ->. split; [done|].
    apply (reformat_is_Some "date" format_date raw el).
    apply (reformat_is_Some "source" format_source _ el). by eexists.
  - intros [Hel [v Hv]%(reformat_is_Some "date" format_date raw el)].
    assert (is_Some (o !! el)) as [w Hw].
    { apply reformat_is_Some. by eexists. }
    exists (text_element nodes_inline ("  " +:+ w) [el] []).
    split; [|done]. right. by apply signature_line.
Qed.

(** X17.  A quote directive is found by a [quotes] directive that asks for
    a group, and for no tags, exactly when its [group] option, read as the
    empty string when it is missing, is the group asked for. *)
Theorem group_of_directive (e : env) (raw : gmap string string)
    (content : list string) (ln : nat) (loptions : options) (G : string) :
  loptions !! "tags" = None →
  loptions !! "group" = Some (VStr G) →
  ∃ targetnode node e',
    Quote_run e raw content ln = Ok ([targetnode; node], e')
    ∧ (passes (filters loptions) node ↔ default "" (raw !! "group") = G).
Proof.
  intros Ht Hg.
  destruct (Quote_run_options e raw content ln)
    as (tn & block & o & e' & Hrun & _ & Ho).
  do 3 eexists. split; [done|]. unfold passes, filters. rewrite Ht, Hg.
  rewrite decide_True by by eexists. simpl. rewrite Forall_singleton.
  rewrite (group_filter_eval loptions (VStr G) _ o) by done.
  rewrite Ho by done. destruct (raw !! "group") as [g|]; simpl.
  - split; [intros [= Hb%bool_decide_eq_true]; congruence|].
    intros ->. by rewrite bool_decide_true.
  - split; [intros [= Hb%bool_decide_eq_true]; congruence|].
    intros <-. by rewrite bool_decide_true.
Qed.

Lemma group_of_directive_witness :
  ∃ targetnode node e',
    Quote_run sample_env {[ "group" := "Research software projects" ]}
      ["a line"] 3 = Ok ([targetnode; node], e')
    ∧ (passes (filters {[ "group" := VStr "Research software projects" ]}) node
       ↔ default "" (({[ "group" := "Research software projects" ]}
                        : gmap string string) !! "group")
         = "Research software projects").
Proof.
  apply (group_of_directive sample_env
           {[ "group" := "Research software projects" ]} ["a line"] 3
           {[ "group" := VStr "Research software projects" ]});
    reflexivity.
Defined.

(** X18.  A quote directive is found by a [quotes] directive that asks for
    tags, and for no group, exactly when every trimmed component of the
    [tags] string of the [quotes] directive is a trimmed component of the
    [tags] string of the quote directive, a missing one reading as the
    empty string. *)
Theorem tags_of_directives (self_options : options) (st : string) :
  self_options !! "tags" = Some (VStr st) →
  self_options !! "group" = None →
  ∃ o,
    Quotes_run self_options = Ok [Element quotes [] [] None (Some o) []]
    ∧ ∀ e raw content ln,
        ∃ targetnode node e',
          Quote_run e raw content ln = Ok ([targetnode; node], e')
          ∧ (passes (filters o) node
             ↔ (list_to_set (strip <$> split "," st) : gset string)
               ⊆ list_to_set
                   (strip <$> split "," (default "" (raw !! "tags")))).
Proof.
  intros Ht Hg. eexists. split.
  - unfold Quotes_run. rewrite decide_True by by eexists.
    by rewrite (prep_tags_eval _ st) by by rewrite Ht.
  - intros e raw content ln.
    destruct (Quote_run_options e raw content ln)
      as (tn & block & o & e' & Hrun & Ho & _).
    do 3 eexists. split; [done|].
    eapply passes_tags_only; [|by rewrite lookup_insert_ne|done..].
    by rewrite lookup_insert_eq.
Qed.

Lemma tags_of_directives_witness :
  ∃ o targetnode node e',
    Quotes_run {[ "random" := VInt 1; "tags" := VStr "sphinx" ]}
    = Ok [Element quotes [] [] None (Some o) []]
    ∧ Quote_run sample_env {[ "tags" := "software, Debian, sphinx" ]}
        ["quote.py is a wonderful extension"] 12
      = Ok ([targetnode; node], e')
    ∧ passes (filters o) node.
Proof.
  destruct (tags_of_directives
              {[ "random" := VInt 1; "tags" := VStr "sphinx" ]} "sphinx")
    as (o & Hrun & Hq); [reflexivity..|].
  destruct (Hq sample_env {[ "tags" := "software, Debian, sphinx" ]}
              ["quote.py is a wonderful extension"] 12)
    as (tn & node & e' & Hquote & Hpass).
  exists o, tn, node, e'. split; [exact Hrun|]. split; [exact Hquote|].
  apply Hpass. intros t Ht. apply elem_of_list_to_set in Ht.
  apply elem_of_list_to_set. simpl in *.
  apply list_elem_of_singleton in Ht as ->.
  do 2 apply list_elem_of_further. apply list_elem_of_here.
Defined.
